(** * Open-addressing hash tables: linear probing, growth and double hashing

    A shallow embedding of the [HashTable] / [ResizableHashTable] classes
    (chatgpt6.py, Claude6.py, gemini6.py; [get] and [del_] of deepseek6.py
    are the same, its [put] has one more guard in front, which is not
    modelled) and of the [DoubleHash] collision-resolution strategy
    (Copilot1.py and gemini1.py on one side, Claude1.py on the other),
    followed by the properties of the specification that were checked
    against them. *)

From Stdlib Require Import ZArith QArith Lia.
From stdpp Require Import base list strings.

Local Open Scope Z_scope.

(** ** Python values, exceptions and results *)

(** The objects that can sit in the [_values] list: the two class-level
    sentinels, [None], and user payloads. *)
Inductive pyobj : Type :=
  | Sentinel_empty
  | Sentinel_deleted
  | PyNone
  | PyBool (b : bool)
  | PyInt (z : Z)
  | PyStr (s : string).

(** A cell of the [_keys] list.  Keys are integers: [hash] computes
    [key % self.size] and indexes a list with the outcome, which only an
    integer key survives. *)
Inductive kslot : Type :=
  | Empty
  | Deleted
  | Key (k : Z).

Inductive exn : Type :=
  | ValueError (msg : string)
  | IndexError
  | ZeroDivisionError.

(** The outcome of running a method: a normal return, a raised exception,
    or [OutOfFuel] when the bound put on a [while True] loop (or on the
    recursion depth) was too small to reach either. *)
Inductive result (A : Type) : Type :=
  | Ok (a : A)
  | Raise (e : exn)
  | OutOfFuel.
Arguments Ok {A} a.
Arguments Raise {A} e.
Arguments OutOfFuel {A}.

Definition bind {A B : Type} (r : result A) (f : A -> result B) : result B :=
  match r with
  | Ok a => f a
  | Raise e => Raise e
  | OutOfFuel => OutOfFuel
  end.

Notation "x <- r ;; k" := (bind r (fun x => k))
  (at level 100, r at next level, right associativity).

(** [l[i]] with Python's indexing: a negative index counts from the end,
    anything outside the list raises [IndexError]. *)
Definition py_index {A : Type} (l : list A) (i : Z) : option nat :=
  if 0 <=? i then
    if i <? Z.of_nat (length l) then Some (Z.to_nat i) else None
  else
    if 0 <=? Z.of_nat (length l) + i then Some (Z.to_nat (Z.of_nat (length l) + i))
    else None.

Definition getitem {A : Type} (l : list A) (i : Z) : result A :=
  match py_index l i with
  | Some n => match l !! n with Some x => Ok x | None => Raise IndexError end
  | None => Raise IndexError
  end.

Definition setitem {A : Type} (l : list A) (i : Z) (x : A) : result (list A) :=
  match py_index l i with
  | Some n => Ok (<[n := x]> l)
  | None => Raise IndexError
  end.

(** ** The linear-probing table (class [HashTable]) *)

Module HashTable.

Record t : Type := mk {
  size : Z;
  _len : Z;
  _keys : list kslot;
  _values : list pyobj
}.

(** [__init__(self, size)]: [[self._empty] * size] is the empty list for a
    size that is not positive. *)
Definition __init__ (sz : Z) : t :=
  {| size := sz;
     _len := 0;
     _keys := replicate (Z.to_nat sz) Empty;
     _values := replicate (Z.to_nat sz) Sentinel_empty |}.

(** [slot is self._empty], [slot is self._deleted], [slot == key]. *)
Definition is_empty (slot : kslot) : bool :=
  match slot with Empty => true | _ => false end.

Definition is_deleted (slot : kslot) : bool :=
  match slot with Deleted => true | _ => false end.

Definition slot_eq (slot : kslot) (key : Z) : bool :=
  match slot with Key k => k =? key | _ => false end.

(** [hash(self, key)]: [key % self.size].  Python's [%] takes the sign of
    the divisor, as [Z.modulo] does, and raises on a zero divisor. *)
Definition hash (self : t) (key : Z) : result Z :=
  if size self =? 0 then Raise ZeroDivisionError else Ok (key mod size self).

(** [_rehash(self, old_hash)]: [(old_hash + 1) % self.size]. *)
Definition _rehash (self : t) (old_hash : Z) : result Z :=
  if size self =? 0 then Raise ZeroDivisionError
  else Ok ((old_hash + 1) mod size self).

(** The message of the [ValueError] that [put] raises (chatgpt6.py,
    Claude6.py; the other two say "Table is full"). *)
Definition full_msg : string := "Hash table is full".

(** The [while True] loop of [put]; one unit of fuel per slot examined. *)
Fixpoint put_loop (fuel : nat) (self : t) (key : Z) (value : pyobj)
    (initial_hash hash_ : Z) : result t :=
  match fuel with
  | O => OutOfFuel
  | S fuel' =>
      slot <- getitem (_keys self) hash_ ;;
      if is_empty slot || is_deleted slot then
        keys' <- setitem (_keys self) hash_ (Key key) ;;
        values' <- setitem (_values self) hash_ value ;;
        Ok {| size := size self; _len := _len self + 1;
              _keys := keys'; _values := values' |}
      else if slot_eq slot key then
        values' <- setitem (_values self) hash_ value ;;
        Ok {| size := size self; _len := _len self;
              _keys := _keys self; _values := values' |}
      else
        next <- _rehash self hash_ ;;
        if next =? initial_hash then Raise (ValueError full_msg)
        else put_loop fuel' self key value initial_hash next
  end.

Definition put_fuel (fuel : nat) (self : t) (key : Z) (value : pyobj) : result t :=
  initial_hash <- hash self key ;;
  put_loop fuel self key value initial_hash initial_hash.

(** The [while True] loop of [get]. *)
Fixpoint get_loop (fuel : nat) (self : t) (key : Z)
    (initial_hash hash_ : Z) : result pyobj :=
  match fuel with
  | O => OutOfFuel
  | S fuel' =>
      slot <- getitem (_keys self) hash_ ;;
      if is_empty slot then Ok PyNone
      else if slot_eq slot key then getitem (_values self) hash_
      else
        next <- _rehash self hash_ ;;
        if next =? initial_hash then Ok PyNone
        else get_loop fuel' self key initial_hash next
  end.

Definition get_fuel (fuel : nat) (self : t) (key : Z) : result pyobj :=
  initial_hash <- hash self key ;;
  get_loop fuel self key initial_hash initial_hash.

(** The [while True] loop of [del_]: every [return] hands back [None]; the
    table comes with it because the method mutates [self]. *)
Fixpoint del_loop (fuel : nat) (self : t) (key : Z)
    (initial_hash hash_ : Z) : result (pyobj * t) :=
  match fuel with
  | O => OutOfFuel
  | S fuel' =>
      slot <- getitem (_keys self) hash_ ;;
      if is_empty slot then Ok (PyNone, self)
      else if slot_eq slot key then
        keys' <- setitem (_keys self) hash_ Deleted ;;
        values' <- setitem (_values self) hash_ Sentinel_deleted ;;
        Ok (PyNone, {| size := size self; _len := _len self - 1;
                       _keys := keys'; _values := values' |})
      else
        next <- _rehash self hash_ ;;
        if next =? initial_hash then Ok (PyNone, self)
        else del_loop fuel' self key initial_hash next
  end.

Definition del_fuel (fuel : nat) (self : t) (key : Z) : result (pyobj * t) :=
  initial_hash <- hash self key ;;
  del_loop fuel self key initial_hash initial_hash.

(** On a table of positive capacity the loops examine at most [size]
    slots (shown among the properties below), so the methods are the
    loops run with that much fuel. *)
Definition put (self : t) (key : Z) (value : pyobj) : result t :=
  put_fuel (Z.to_nat (size self)) self key value.

Definition get (self : t) (key : Z) : result pyobj :=
  get_fuel (Z.to_nat (size self)) self key.

Definition del_ (self : t) (key : Z) : result (pyobj * t) :=
  del_fuel (Z.to_nat (size self)) self key.

(** [__len__] and [__contains__]. *)
Definition __len__ (self : t) : Z := _len self.

Definition __contains__ (self : t) (key : Z) : result bool :=
  v <- get self key ;;
  Ok (match v with PyNone => false | _ => true end).

End HashTable.

(** ** The growing table (class [ResizableHashTable]) *)

Module ResizableHashTable.

Import HashTable.

Definition MIN_SIZE : Z := 8.

(** [__init__]: [super().__init__(self.MIN_SIZE)]. *)
Definition __init__ : HashTable.t := HashTable.__init__ MIN_SIZE.

(** The [for key, value in zip(old_keys, old_values)] loop of [_resize].
    [self.put] is looked up on the instance, so it is the overriding
    [put] of this class; it comes in as [self_put]. *)
Fixpoint reinsert (self_put : HashTable.t -> Z -> pyobj -> result HashTable.t)
    (entries : list (kslot * pyobj)) (self : HashTable.t) : result HashTable.t :=
  match entries with
  | [] => Ok self
  | (Key key, value) :: rest =>
      self' <- self_put self key value ;;
      reinsert self_put rest self'
  | _ :: rest => reinsert self_put rest self
  end.

Definition _resize (self_put : HashTable.t -> Z -> pyobj -> result HashTable.t)
    (self : HashTable.t) : result HashTable.t :=
  let old_keys := _keys self in
  let old_values := _values self in
  let new_size := size self * 2 in
  reinsert self_put (zip old_keys old_values)
    {| size := new_size; _len := 0;
       _keys := replicate (Z.to_nat new_size) Empty;
       _values := replicate (Z.to_nat new_size) Sentinel_empty |}.

Section Growth.
(** The test of the [if] in [put], where the sources differ. *)
Variable resize_due : HashTable.t -> bool.

(** [put]: [super().put(key, value)], then [_resize()] when the test
    says so.  [put] and [_resize] call each other; [depth] bounds the
    nesting of these calls. *)
Fixpoint put (depth : nat) (self : HashTable.t) (key : Z) (value : pyobj)
    : result HashTable.t :=
  match depth with
  | O => OutOfFuel
  | S depth' =>
      self' <- HashTable.put self key value ;;
      if resize_due self' then _resize (put depth') self'
      else Ok self'
  end.

(** A run of [put] calls, in list order. *)
Fixpoint puts (depth : nat) (self : HashTable.t) (entries : list (Z * pyobj))
    : result HashTable.t :=
  match entries with
  | [] => Ok self
  | (key, value) :: rest =>
      self' <- put depth self key value ;;
      puts depth self' rest
  end.
End Growth.

(** chatgpt6.py: [len(self) >= (self.size * 2) // 3], floor division. *)
Definition due_floor (self : HashTable.t) : bool :=
  __len__ self >=? (size self * 2) / 3.

(** gemini6.py and Claude6.py: [len(self) >= (self.size * 2) / 3], true
    division; the quotient is taken over the rationals here. *)
Definition due_true_division (self : HashTable.t) : bool :=
  Qle_bool (inject_Z (size self * 2) / inject_Z 3)%Q (inject_Z (__len__ self)).

End ResizableHashTable.

(** ** Double hashing (class [DoubleHash]) *)

(** [a % b] on Python integers. *)
Definition py_mod (a b : Z) : result Z :=
  if b =? 0 then Raise ZeroDivisionError else Ok (a mod b).

(** The base class of [DoubleHash] (module [hash_table]) and the helpers
    [check_prime] and [next_prime] (module [number_theory.prime_numbers])
    are imported by the sources but are not part of them.  What the
    strategy reads from them is taken as parameters: the attributes
    [size_table], [values] and [lim_charge], the outcome of
    [balanced_factor()] (the loop does not change the table, so it is the
    same at every test), and the functions [hash_function], [check_prime]
    and [next_prime]. *)
Record dh_table : Type := mk_dh {
  size_table : Z;
  values : list (option Z);
  lim_charge : Q;
  balanced_factor : Q;
  hash_function : Z -> Z
}.

(** [values[i] is not None and values[i] != key] *)
Definition occupied_by_other (v : option Z) (key : Z) : bool :=
  match v with
  | Some d => negb (d =? key)
  | None => false
  end.

(** Copilot1.py; gemini1.py has the same three methods under the names
    [_secondary_hash], [_double_hash] and [_collision_resolution]. *)
Module Copilot1.
Section DoubleHash.
Variable check_prime : Z -> bool.
Variable next_prime : Z -> Z.
Variable self : dh_table.

Definition __hash_function_2 (value data : Z) : result Z :=
  remainder <- py_mod value (size_table self) ;;
  let next_prime_gt :=
    if negb (check_prime remainder) then next_prime remainder else remainder in
  r <- py_mod data next_prime_gt ;;
  Ok (next_prime_gt - r).

Definition __hash_double_function (key data increment : Z) : result Z :=
  h2 <- __hash_function_2 key data ;;
  py_mod (increment * h2) (size_table self).

(** The [while] loop of [_collision_resolution]; one unit of fuel per
    slot examined. *)
Fixpoint collision_loop (fuel : nat) (key data i new_key : Z)
    : result (option Z) :=
  match fuel with
  | O => OutOfFuel
  | S fuel' =>
      v <- getitem (values self) new_key ;;
      if occupied_by_other v key then
        if Qle_bool (lim_charge self) (balanced_factor self) then
          new_key' <- __hash_double_function key data i ;;
          collision_loop fuel' key data (i + 1) new_key'
        else Ok None
      else Ok (Some new_key)
  end.

Definition _collision_resolution (fuel : nat) (key data : Z)
    : result (option Z) :=
  collision_loop fuel key data 1 (hash_function self data).
End DoubleHash.
End Copilot1.

(** Claude1.py *)
Module Claude1.
Section DoubleHash.
Variable check_prime : Z -> bool.
Variable next_prime : Z -> Z.
Variable self : dh_table.

Definition _get_secondary_prime (value : Z) : result Z :=
  hash_mod <- py_mod value (size_table self) ;;
  if check_prime hash_mod then Ok hash_mod else Ok (next_prime hash_mod).

Definition _calculate_second_hash (key data : Z) : result Z :=
  prime <- _get_secondary_prime key ;;
  r <- py_mod data prime ;;
  Ok (prime - r).

Definition _calculate_probe_position (key data iteration : Z) : result Z :=
  step <- _calculate_second_hash key data ;;
  py_mod (iteration * step) (size_table self).

Fixpoint collision_loop (fuel : nat) (key data iteration position : Z)
    : result (option Z) :=
  match fuel with
  | O => OutOfFuel
  | S fuel' =>
      v <- getitem (values self) position ;;
      if occupied_by_other v key then
        if Qle_bool (lim_charge self) (balanced_factor self) then Ok None
        else
          position' <- _calculate_probe_position key data iteration ;;
          collision_loop fuel' key data (iteration + 1) position'
      else Ok (Some position)
  end.

Definition _collision_resolution (fuel : nat) (key data : Z)
    : result (option Z) :=
  collision_loop fuel key data 1 (hash_function self data).
End DoubleHash.
End Claude1.

(** *** The parts the sources import *)

(** Trial division: no [d' >= d] below [n] divides [n]. *)
Fixpoint no_divisor_from (fuel : nat) (d n : Z) : bool :=
  match fuel with
  | O => true
  | S fuel' =>
      if n <=? d then true
      else if n mod d =? 0 then false
      else no_divisor_from fuel' (d + 1) n
  end.

(** Modelled from the spec: [check_prime] of [number_theory.prime_numbers],
    which is not among the sources.  The spec speaks of the remainder
    being already prime; this is primality by trial division. *)
Definition check_prime_model (n : Z) : bool :=
  (2 <=? n) && no_divisor_from (Z.to_nat n) 2 n.

(** The first prime among [c], [c + 1], ... *)
Fixpoint first_prime_from (fuel : nat) (c : Z) : Z :=
  match fuel with
  | O => c
  | S fuel' => if check_prime_model c then c else first_prime_from fuel' (c + 1)
  end.

(** Modelled from the spec: [next_prime] of [number_theory.prime_numbers],
    which is not among the sources.  The spec has it advance to the next
    prime strictly greater than its argument.  The search stops after
    [n + 2] candidates, which reach past [2 * n]. *)
Definition next_prime_model (n : Z) : Z :=
  first_prime_from (Z.to_nat n + 2) (n + 1).

(** Modelled from the spec: [hash_function] of the base class, which is
    not among the sources; the home slot is the key modulo the size. *)
Definition hash_function_model (size data : Z) : Z := data mod size.

(** Modelled from the spec: [balanced_factor] of the base class, which is
    not among the sources; the load factor is the number of occupied
    slots over the capacity. *)
Definition balanced_factor_model (size : Z) (vals : list (option Z)) : Q :=
  Z.of_nat (length (filter (fun v : option Z => is_Some v) vals)) # Z.to_pos size.

Definition dh_make (size : Z) (vals : list (option Z)) (lim : Q) : dh_table :=
  {| size_table := size; values := vals; lim_charge := lim;
     balanced_factor := balanced_factor_model size vals;
     hash_function := hash_function_model size |}.

(** The probe position as the specification words it: one value [v] feeds
    both the choice of the prime and the inner modulo. *)
Definition spec_h2 (size v : Z) : Z :=
  let r := v mod size in
  let p := if check_prime_model r then r else next_prime_model r in
  p - v mod p.

Definition spec_probe (size v i : Z) : Z := (i * spec_h2 size v) mod size.

Import HashTable.

(** ** Vocabulary for the properties *)

(** The shape [__init__] establishes and every method keeps: a positive
    capacity and two lists of that length. *)
Definition wf (self : HashTable.t) : Prop :=
  0 < size self /\
  Z.of_nat (length (_keys self)) = size self /\
  Z.of_nat (length (_values self)) = size self.

(** The cell of [_keys] and of [_values] at position [p]. *)
Definition slot_at (self : HashTable.t) (p : Z) : kslot :=
  default Empty (_keys self !! Z.to_nat p).

Definition value_at (self : HashTable.t) (p : Z) : pyobj :=
  default Sentinel_empty (_values self !! Z.to_nat p).

(** The position examined after [j] steps of [_rehash] from the home slot
    [h]. *)
Definition pos (self : HashTable.t) (h j : Z) : Z := (h + j) mod size self.

(** A probe: walk from the home slot until a cell satisfies [stop] or the
    walk is back at the home slot.  The three loops are instances of it
    (lemmas [put_loop_probe], [get_loop_probe], [del_loop_probe]). *)
Fixpoint probe (fuel : nat) (stop : kslot -> bool) (self : HashTable.t)
    (initial_hash hash_ : Z) : result (option Z) :=
  match fuel with
  | O => OutOfFuel
  | S fuel' =>
      slot <- getitem (_keys self) hash_ ;;
      if stop slot then Ok (Some hash_)
      else
        next <- _rehash self hash_ ;;
        if next =? initial_hash then Ok None
        else probe fuel' stop self initial_hash next
  end.

Definition first_stop (stop : kslot -> bool) (self : HashTable.t) (h p : Z) : Prop :=
  exists j, 0 <= j < size self /\ p = pos self h j /\
    stop (slot_at self p) = true /\
    forall j', 0 <= j' < j -> stop (slot_at self (pos self h j')) = false.

Definition no_stop (stop : kslot -> bool) (self : HashTable.t) (h : Z) : Prop :=
  forall j, 0 <= j < size self -> stop (slot_at self (pos self h j)) = false.

Definition stop_put (key : Z) (slot : kslot) : bool :=
  is_empty slot || is_deleted slot || slot_eq slot key.

Definition stop_get (key : Z) (slot : kslot) : bool :=
  is_empty slot || slot_eq slot key.

(** The tables the three writes leave behind. *)
Definition written (self : HashTable.t) (p key : Z) (value : pyobj) : HashTable.t :=
  {| size := size self; _len := _len self + 1;
     _keys := <[Z.to_nat p := Key key]> (_keys self);
     _values := <[Z.to_nat p := value]> (_values self) |}.

Definition overwritten (self : HashTable.t) (p : Z) (value : pyobj) : HashTable.t :=
  {| size := size self; _len := _len self;
     _keys := _keys self;
     _values := <[Z.to_nat p := value]> (_values self) |}.

Definition tombstoned (self : HashTable.t) (p : Z) : HashTable.t :=
  {| size := size self; _len := _len self - 1;
     _keys := <[Z.to_nat p := Deleted]> (_keys self);
     _values := <[Z.to_nat p := Sentinel_deleted]> (_values self) |}.

Definition put_outcome (self : HashTable.t) (key : Z) (value : pyobj)
    (r : option Z) : result HashTable.t :=
  match r with
  | Some p =>
      Ok (if slot_eq (slot_at self p) key then overwritten self p value
          else written self p key value)
  | None => Raise (ValueError full_msg)
  end.

Definition get_outcome (self : HashTable.t) (key : Z) (r : option Z) : result pyobj :=
  match r with
  | Some p => Ok (if slot_eq (slot_at self p) key then value_at self p else PyNone)
  | None => Ok PyNone
  end.

Definition del_outcome (self : HashTable.t) (key : Z) (r : option Z)
    : result (pyobj * HashTable.t) :=
  match r with
  | Some p =>
      Ok (PyNone, if slot_eq (slot_at self p) key then tombstoned self p else self)
  | None => Ok (PyNone, self)
  end.

(** The probe for [key] ends on position [p], which holds [key]. *)
Definition finds (self : HashTable.t) (key p : Z) : Prop :=
  first_stop (stop_get key) self (key mod size self) p /\ slot_at self p = Key key.

(** The table holds [key] with [value] in some cell. *)
Definition holds (self : HashTable.t) (key : Z) (value : pyobj) : Prop :=
  exists p, 0 <= p < size self /\ slot_at self p = Key key /\ value_at self p = value.

Definition is_key (slot : kslot) : bool :=
  match slot with Key _ => true | _ => false end.

(** The number of Occupied cells. *)
Definition count_keys (keys : list kslot) : Z :=
  Z.of_nat (length (List.filter is_key keys)).

(** What a table built by [put] alone satisfies: no tombstones, every
    occupied cell is the one the probe for its key ends on (so no key sits
    in two cells), and [_len] counts the occupied cells. *)
Definition Inv (self : HashTable.t) : Prop :=
  wf self /\
  (forall p, 0 <= p < size self -> slot_at self p <> Deleted) /\
  (forall p k, 0 <= p < size self -> slot_at self p = Key k -> finds self k p) /\
  _len self = count_keys (_keys self).

(** [Inv], below the load at which the growing table resizes. *)
Definition RInv (resize_due : HashTable.t -> bool) (self : HashTable.t) : Prop :=
  Inv self /\ 3 <= size self /\ resize_due self = false.

(** No key occurs at two places of a list of (cell, value) pairs. *)
Definition distinct_keys (es : list (kslot * pyobj)) : Prop :=
  forall i j k v v',
    es !! i = Some (Key k, v) -> es !! j = Some (Key k, v') -> i = j.

(** [p] is the smallest prime that is at least [r]. *)
Definition least_prime_ge (r p : Z) : Prop :=
  Z.prime p /\ r <= p /\ forall q, Z.prime q -> r <= q -> p <= q.

(** Two tables of capacity 4 with ceiling 3/4: three cells taken (load at
    the ceiling) and two cells taken (load below it). *)
Definition dh_at_ceiling : dh_table :=
  dh_make 4 [Some 8; Some 5; Some 6; None] (3 # 4).

Definition dh_below_ceiling : dh_table :=
  dh_make 4 [Some 8; None; Some 6; None] (3 # 4).

(** Tables of capacity 11 with ceiling 3/4: one cell taken, and nine. *)
Definition dh_sparse : dh_table :=
  dh_make 11 [Some 11; None; None; None; None; None; None; None; None; None; None]
    (3 # 4).

Definition dh_crowded : dh_table :=
  dh_make 11 [Some 11; Some 1; None; Some 3; Some 4; Some 5; Some 6; Some 7;
              Some 8; Some 9; None] (3 # 4).

(** Twelve entries take the table from capacity 8 to 16 and on to 32. *)
Definition twelve_entries : list (Z * pyobj) :=
  (fun k => (k * 3, PyInt k)) <$> seqZ 0 12.

(** ** The rest of the classes *)

(** The subscript interface: [t[key]], [t[key] = value], [del t[key]]. *)
Definition __getitem__ (self : HashTable.t) (key : Z) : result pyobj :=
  get self key.

Definition __setitem__ (self : HashTable.t) (key : Z) (value : pyobj)
    : result HashTable.t :=
  put self key value.

Definition __delitem__ (self : HashTable.t) (key : Z) : result (pyobj * HashTable.t) :=
  del_ self key.

(** deepseek6.py, where it differs from the other three: [__init__]
    rejects a size that is not positive, and [put] refuses to run on a
    table whose [_len] has reached [size].  ([hash] also rejects a key
    that is not an integer; keys are integers here.) *)
Module Deepseek6.

Definition size_msg : string := "Size must be a positive integer".
Definition full_msg : string := "Table is full".

Definition __init__ (sz : Z) : result HashTable.t :=
  if sz <=? 0 then Raise (ValueError size_msg) else Ok (HashTable.__init__ sz).

Fixpoint put_loop (fuel : nat) (self : HashTable.t) (key : Z) (value : pyobj)
    (initial_hash hash_ : Z) : result HashTable.t :=
  match fuel with
  | O => OutOfFuel
  | S fuel' =>
      slot <- getitem (_keys self) hash_ ;;
      if is_empty slot || is_deleted slot then
        keys' <- setitem (_keys self) hash_ (Key key) ;;
        values' <- setitem (_values self) hash_ value ;;
        Ok {| size := size self; _len := _len self + 1;
              _keys := keys'; _values := values' |}
      else if slot_eq slot key then
        values' <- setitem (_values self) hash_ value ;;
        Ok {| size := size self; _len := _len self;
              _keys := _keys self; _values := values' |}
      else
        next <- _rehash self hash_ ;;
        if next =? initial_hash then Raise (ValueError full_msg)
        else put_loop fuel' self key value initial_hash next
  end.

Definition put_fuel (fuel : nat) (self : HashTable.t) (key : Z) (value : pyobj)
    : result HashTable.t :=
  if _len self >=? size self then Raise (ValueError full_msg)
  else
    initial_hash <- hash self key ;;
    put_loop fuel self key value initial_hash initial_hash.

Definition put (self : HashTable.t) (key : Z) (value : pyobj) : result HashTable.t :=
  put_fuel (Z.to_nat (size self)) self key value.

(** [_resize] of its [ResizableHashTable] reinserts with [super().put],
    the [put] above. *)
Definition _resize (self : HashTable.t) : result HashTable.t :=
  ResizableHashTable._resize put self.

End Deepseek6.

(** ** Runs of calls *)

(** A call that changes the table. *)
Inductive op : Type :=
  | Put (key : Z) (value : pyobj)
  | Del (key : Z).

(** One call on the plain table, and a run of calls that stops at the
    first exception. *)
Definition apply_op (self : HashTable.t) (o : op) : result HashTable.t :=
  match o with
  | Put key value => put self key value
  | Del key => r <- del_ self key ;; Ok (snd r)
  end.

Fixpoint run (ops : list op) (self : HashTable.t) : result HashTable.t :=
  match ops with
  | [] => Ok self
  | o :: rest => self' <- apply_op self o ;; run rest self'
  end.

(** The same on the growing table, whose [del_] is the inherited one. *)
Definition grow_apply (resize_due : HashTable.t -> bool) (depth : nat)
    (self : HashTable.t) (o : op) : result HashTable.t :=
  match o with
  | Put key value => ResizableHashTable.put resize_due depth self key value
  | Del key => r <- del_ self key ;; Ok (snd r)
  end.

Fixpoint grow_run (resize_due : HashTable.t -> bool) (depth : nat)
    (ops : list op) (self : HashTable.t) : result HashTable.t :=
  match ops with
  | [] => Ok self
  | o :: rest =>
      self' <- grow_apply resize_due depth self o ;;
      grow_run resize_due depth rest self'
  end.

(** No key sits in two cells. *)
Definition unique_keys (self : HashTable.t) : Prop :=
  forall p q k, 0 <= p < size self -> 0 <= q < size self ->
    slot_at self p = Key k -> slot_at self q = Key k -> p = q.

(** [_len] counts the occupied cells. *)
Definition LInv (self : HashTable.t) : Prop :=
  wf self /\ _len self = count_keys (_keys self).

(** No key is cut off from its home slot: between the home slot of a key
    and a cell that holds it the walk meets no Empty cell. *)
Definition chained (self : HashTable.t) : Prop :=
  forall j k, 0 <= j < size self ->
    slot_at self (pos self (k mod size self) j) = Key k ->
    forall j', 0 <= j' < j -> slot_at self (pos self (k mod size self) j') <> Empty.

Definition CInv (self : HashTable.t) : Prop := LInv self /\ chained self.

(** * Properties *)

(** ** Indexing inside the list *)

Lemma py_index_in_range {A : Type} (l : list A) (i : Z) :
  0 <= i < Z.of_nat (length l) -> py_index l i = Some (Z.to_nat i).
Proof.
  intros [H0 H1]. unfold py_index.
  destruct (Z.leb_spec 0 i); [|lia].
  destruct (Z.ltb_spec i (Z.of_nat (length l))); [reflexivity|lia].
Qed.

Lemma getitem_in_range {A : Type} (l : list A) (i : Z) (d : A) :
  0 <= i < Z.of_nat (length l) ->
  getitem l i = Ok (default d (l !! Z.to_nat i)).
Proof.
  intros Hi. unfold getitem. rewrite py_index_in_range by assumption.
  destruct (l !! Z.to_nat i) eqn:E; [reflexivity|].
  apply lookup_ge_None in E. lia.
Qed.

Lemma setitem_in_range {A : Type} (l : list A) (i : Z) (x : A) :
  0 <= i < Z.of_nat (length l) ->
  setitem l i x = Ok (<[Z.to_nat i := x]> l).
Proof.
  intros Hi. unfold setitem. now rewrite py_index_in_range.
Qed.

Section Probe.
Variable self : HashTable.t.
Hypothesis Hwf : wf self.

Lemma pos_range h j : 0 <= pos self h j < size self.
Proof. unfold pos. apply Z.mod_pos_bound. apply Hwf. Qed.

Lemma pos_0 h : 0 <= h < size self -> pos self h 0 = h.
Proof. intros Hh. unfold pos. rewrite Z.add_0_r. now apply Z.mod_small. Qed.

Lemma pos_succ h j : (pos self h j + 1) mod size self = pos self h (j + 1).
Proof.
  unfold pos. destruct Hwf as [Hs _].
  rewrite Z.add_mod_idemp_l by lia. f_equal. lia.
Qed.

Lemma pos_inj h j1 j2 :
  0 <= j1 < size self -> 0 <= j2 < size self ->
  pos self h j1 = pos self h j2 -> j1 = j2.
Proof.
  unfold pos. destruct Hwf as [Hs _]. intros H1 H2 E.
  assert (D : ((h + j1) - (h + j2)) mod size self = 0).
  { rewrite Zminus_mod, E, Z.sub_diag. now apply Z.mod_0_l; lia. }
  replace (h + j1 - (h + j2)) with (j1 - j2) in D by lia.
  apply Z.mod_divide in D; [|lia]. destruct D as [c D].
  assert (c = 0) by nia. lia.
Qed.

Lemma pos_back h j :
  0 <= h < size self -> 0 <= j < size self ->
  pos self h j = h -> j = 0.
Proof.
  intros Hh Hj E. apply (pos_inj h); [assumption|lia|].
  now rewrite pos_0.
Qed.

Lemma pos_full h : 0 <= h < size self -> pos self h (size self) = h.
Proof.
  intros Hh. unfold pos. destruct Hwf as [Hs _].
  rewrite <- Z.add_mod_idemp_r, Z.mod_same, Z.add_0_r by lia.
  now apply Z.mod_small.
Qed.

(** Every position is on the walk from any home slot. *)
Lemma pos_cover h p :
  0 <= p < size self -> exists j, 0 <= j < size self /\ p = pos self h j.
Proof.
  intros Hp. destruct Hwf as [Hs _].
  exists ((p - h) mod size self). split.
  - now apply Z.mod_pos_bound.
  - unfold pos. rewrite Z.add_mod_idemp_r by lia.
    replace (h + (p - h)) with p by lia. symmetry. now apply Z.mod_small.
Qed.

Lemma getitem_keys p :
  0 <= p < size self -> getitem (_keys self) p = Ok (slot_at self p).
Proof.
  intros Hp. apply getitem_in_range. destruct Hwf as (_ & Hk & _). lia.
Qed.

Lemma getitem_values p :
  0 <= p < size self -> getitem (_values self) p = Ok (value_at self p).
Proof.
  intros Hp. apply getitem_in_range. destruct Hwf as (_ & _ & Hv). lia.
Qed.

Lemma rehash_ok p : _rehash self p = Ok ((p + 1) mod size self).
Proof.
  unfold _rehash. destruct Hwf as [Hs _].
  destruct (Z.eqb_spec (size self) 0); [lia|reflexivity].
Qed.

Lemma hash_ok key : hash self key = Ok (key mod size self).
Proof.
  unfold hash. destruct Hwf as [Hs _].
  destruct (Z.eqb_spec (size self) 0); [lia|reflexivity].
Qed.

(** The walk started [j] steps from home, with fuel for the remaining
    cells, ends at the first stopping cell or reports none. *)
Lemma probe_from stop h (Hh : 0 <= h < size self) :
  forall n j, 0 <= j < size self -> size self - j <= Z.of_nat n ->
    (exists j1, j <= j1 < size self /\
       stop (slot_at self (pos self h j1)) = true /\
       (forall j', j <= j' < j1 -> stop (slot_at self (pos self h j')) = false) /\
       probe n stop self h (pos self h j) = Ok (Some (pos self h j1)))
    \/
    ((forall j', j <= j' < size self -> stop (slot_at self (pos self h j')) = false) /\
       probe n stop self h (pos self h j) = Ok None).
Proof.
  induction n as [|n IH]; intros j Hj Hn; [lia|].
  cbn [probe]. rewrite getitem_keys by apply pos_range. cbn [bind].
  destruct (stop (slot_at self (pos self h j))) eqn:Es.
  - left. exists j. split; [lia|]. split; [assumption|].
    split; [intros; lia|reflexivity].
  - rewrite rehash_ok. cbn [bind]. rewrite pos_succ.
    destruct (Z.eqb_spec (pos self h (j + 1)) h) as [Eb|Eb].
    + right. split; [|reflexivity]. intros j' Hj'.
      destruct (Z.eq_dec (j + 1) (size self)) as [Ej|Ej].
      * now replace j' with j by lia.
      * apply pos_back in Eb; lia.
    + assert (Hj1 : j + 1 < size self).
      { destruct (Z.eq_dec (j + 1) (size self)) as [Ej|Ej]; [|lia].
        rewrite Ej, pos_full in Eb; [contradiction|assumption]. }
      destruct (IH (j + 1)) as [(j1 & Hr & Hst & Hbefore & Hp)|[Hnone Hp]]; try lia.
      * left. exists j1. split; [lia|]. split; [assumption|].
        split; [|assumption].
        intros j' Hj'. destruct (Z.eq_dec j' j) as [->|]; [assumption|].
        apply Hbefore. lia.
      * right. split; [|assumption].
        intros j' Hj'. destruct (Z.eq_dec j' j) as [->|]; [assumption|].
        apply Hnone. lia.
Qed.

Lemma first_stop_unique stop h p q :
  first_stop stop self h p -> first_stop stop self h q -> p = q.
Proof.
  intros (j & Hj & -> & Hs & Hb) (k & Hk & -> & Hs' & Hb').
  destruct (Z.lt_trichotomy j k) as [L|[->|L]]; [|reflexivity|].
  - rewrite Hb' in Hs by lia. discriminate.
  - rewrite Hb in Hs' by lia. discriminate.
Qed.

Lemma first_stop_not_none stop h p :
  first_stop stop self h p -> no_stop stop self h -> False.
Proof.
  intros (j & Hj & -> & Hs & _) Hn. rewrite Hn in Hs by assumption. discriminate.
Qed.

(** With fuel for [size] cells the walk from the home slot is decided. *)
Lemma probe_decided stop h n :
  0 <= h < size self -> size self <= Z.of_nat n ->
  (exists p, first_stop stop self h p /\ probe n stop self h h = Ok (Some p))
  \/ (no_stop stop self h /\ probe n stop self h h = Ok None).
Proof.
  intros Hh Hn. destruct Hwf as [Hs _].
  destruct (probe_from stop h Hh n 0) as [(j1 & Hr & Hst & Hb & Hp)|[Hnone Hp]];
    try lia; rewrite pos_0 in Hp by assumption.
  - left. exists (pos self h j1). split; [|assumption].
    exists j1. split; [lia|]. split; [reflexivity|]. split; [assumption|].
    intros; apply Hb; lia.
  - right. split; [|assumption]. intros j Hj. now apply Hnone.
Qed.

Lemma probe_first_stop stop h n p :
  0 <= h < size self -> size self <= Z.of_nat n ->
  first_stop stop self h p -> probe n stop self h h = Ok (Some p).
Proof.
  intros Hh Hn Hp.
  destruct (probe_decided stop h n Hh Hn) as [(q & Hq & E)|[Hnone E]].
  - now rewrite (first_stop_unique _ _ _ _ Hp Hq).
  - destruct (first_stop_not_none _ _ _ Hp Hnone).
Qed.

Lemma probe_no_stop stop h n :
  0 <= h < size self -> size self <= Z.of_nat n ->
  no_stop stop self h -> probe n stop self h h = Ok None.
Proof.
  intros Hh Hn Hnone.
  destruct (probe_decided stop h n Hh Hn) as [(q & Hq & E)|[_ E]]; [|assumption].
  destruct (first_stop_not_none _ _ _ Hq Hnone).
Qed.

Lemma first_stop_range stop h p : first_stop stop self h p -> 0 <= p < size self.
Proof. intros (j & _ & -> & _). apply pos_range. Qed.
End Probe.

(** ** The three loops as probes *)

Section Loops.
Variable self : HashTable.t.
Hypothesis Hwf : wf self.

Lemma setitem_keys p x :
  0 <= p < size self -> setitem (_keys self) p x = Ok (<[Z.to_nat p := x]> (_keys self)).
Proof. intros Hp. apply setitem_in_range. destruct Hwf as (_ & Hk & _). lia. Qed.

Lemma setitem_values p x :
  0 <= p < size self -> setitem (_values self) p x = Ok (<[Z.to_nat p := x]> (_values self)).
Proof. intros Hp. apply setitem_in_range. destruct Hwf as (_ & _ & Hv). lia. Qed.

Lemma next_range p : 0 <= (p + 1) mod size self < size self.
Proof. apply Z.mod_pos_bound. apply Hwf. Qed.

Lemma put_loop_probe key value h0 :
  forall fuel h, 0 <= h < size self ->
    put_loop fuel self key value h0 h =
    (r <- probe fuel (stop_put key) self h0 h ;; put_outcome self key value r).
Proof.
  induction fuel as [|fuel IH]; intros h Hh; [reflexivity|].
  cbn [put_loop probe]. rewrite (getitem_keys self Hwf) by assumption. cbn [bind].
  unfold stop_put.
  destruct (slot_at self h) as [| |k] eqn:Es; cbn.
  - rewrite setitem_keys, setitem_values by assumption. cbn.
    rewrite Es. reflexivity.
  - rewrite setitem_keys, setitem_values by assumption. cbn.
    rewrite Es. reflexivity.
  - destruct (Z.eqb_spec k key) as [->|Hne].
    + rewrite setitem_values by assumption. cbn. rewrite Es. cbn.
      now rewrite Z.eqb_refl.
    + rewrite (rehash_ok self Hwf). cbn [bind].
      destruct (_ =? h0); [reflexivity|]. apply IH, next_range.
Qed.

Lemma get_loop_probe key h0 :
  forall fuel h, 0 <= h < size self ->
    get_loop fuel self key h0 h =
    (r <- probe fuel (stop_get key) self h0 h ;; get_outcome self key r).
Proof.
  induction fuel as [|fuel IH]; intros h Hh; [reflexivity|].
  cbn [get_loop probe]. rewrite (getitem_keys self Hwf) by assumption. cbn [bind].
  unfold stop_get.
  destruct (slot_at self h) as [| |k] eqn:Es; cbn.
  - rewrite Es. reflexivity.
  - rewrite (rehash_ok self Hwf). cbn [bind].
    destruct (_ =? h0); [reflexivity|]. apply IH, next_range.
  - destruct (Z.eqb_spec k key) as [->|Hne].
    + rewrite (getitem_values self Hwf) by assumption. cbn. rewrite Es. cbn.
      now rewrite Z.eqb_refl.
    + rewrite (rehash_ok self Hwf). cbn [bind].
      destruct (_ =? h0); [reflexivity|]. apply IH, next_range.
Qed.

Lemma del_loop_probe key h0 :
  forall fuel h, 0 <= h < size self ->
    del_loop fuel self key h0 h =
    (r <- probe fuel (stop_get key) self h0 h ;; del_outcome self key r).
Proof.
  induction fuel as [|fuel IH]; intros h Hh; [reflexivity|].
  cbn [del_loop probe]. rewrite (getitem_keys self Hwf) by assumption. cbn [bind].
  unfold stop_get.
  destruct (slot_at self h) as [| |k] eqn:Es; cbn.
  - rewrite Es. reflexivity.
  - rewrite (rehash_ok self Hwf). cbn [bind].
    destruct (_ =? h0); [reflexivity|]. apply IH, next_range.
  - destruct (Z.eqb_spec k key) as [->|Hne].
    + rewrite setitem_keys, setitem_values by assumption. cbn. rewrite Es. cbn.
      now rewrite Z.eqb_refl.
    + rewrite (rehash_ok self Hwf). cbn [bind].
      destruct (_ =? h0); [reflexivity|]. apply IH, next_range.
Qed.

Lemma home_range key : 0 <= key mod size self < size self.
Proof. apply Z.mod_pos_bound. apply Hwf. Qed.

Lemma put_fuel_probe fuel key value :
  put_fuel fuel self key value =
  (r <- probe fuel (stop_put key) self (key mod size self) (key mod size self) ;;
   put_outcome self key value r).
Proof.
  unfold put_fuel. rewrite (hash_ok self Hwf). cbn [bind].
  apply put_loop_probe, home_range.
Qed.

Lemma get_fuel_probe fuel key :
  get_fuel fuel self key =
  (r <- probe fuel (stop_get key) self (key mod size self) (key mod size self) ;;
   get_outcome self key r).
Proof.
  unfold get_fuel. rewrite (hash_ok self Hwf). cbn [bind].
  apply get_loop_probe, home_range.
Qed.

Lemma del_fuel_probe fuel key :
  del_fuel fuel self key =
  (r <- probe fuel (stop_get key) self (key mod size self) (key mod size self) ;;
   del_outcome self key r).
Proof.
  unfold del_fuel. rewrite (hash_ok self Hwf). cbn [bind].
  apply del_loop_probe, home_range.
Qed.

Lemma size_fuel n : (Z.to_nat (size self) <= n)%nat -> size self <= Z.of_nat n.
Proof. lia. Qed.

(** What each method does, read off the first stopping cell. *)
Lemma put_fuel_first_stop fuel key value p :
  (Z.to_nat (size self) <= fuel)%nat ->
  first_stop (stop_put key) self (key mod size self) p ->
  put_fuel fuel self key value =
  Ok (if slot_eq (slot_at self p) key then overwritten self p value
      else written self p key value).
Proof.
  intros Hf Hp. rewrite put_fuel_probe.
  rewrite (probe_first_stop self Hwf _ _ _ p (home_range key) (size_fuel _ Hf) Hp).
  reflexivity.
Qed.

Lemma put_fuel_no_stop fuel key value :
  (Z.to_nat (size self) <= fuel)%nat ->
  no_stop (stop_put key) self (key mod size self) ->
  put_fuel fuel self key value = Raise (ValueError full_msg).
Proof.
  intros Hf Hp. rewrite put_fuel_probe.
  rewrite (probe_no_stop self Hwf _ _ _ (home_range key) (size_fuel _ Hf) Hp).
  reflexivity.
Qed.

Lemma get_fuel_first_stop fuel key p :
  (Z.to_nat (size self) <= fuel)%nat ->
  first_stop (stop_get key) self (key mod size self) p ->
  get_fuel fuel self key =
  Ok (if slot_eq (slot_at self p) key then value_at self p else PyNone).
Proof.
  intros Hf Hp. rewrite get_fuel_probe.
  rewrite (probe_first_stop self Hwf _ _ _ p (home_range key) (size_fuel _ Hf) Hp).
  reflexivity.
Qed.

Lemma get_fuel_no_stop fuel key :
  (Z.to_nat (size self) <= fuel)%nat ->
  no_stop (stop_get key) self (key mod size self) ->
  get_fuel fuel self key = Ok PyNone.
Proof.
  intros Hf Hp. rewrite get_fuel_probe.
  rewrite (probe_no_stop self Hwf _ _ _ (home_range key) (size_fuel _ Hf) Hp).
  reflexivity.
Qed.

Lemma del_fuel_first_stop fuel key p :
  (Z.to_nat (size self) <= fuel)%nat ->
  first_stop (stop_get key) self (key mod size self) p ->
  del_fuel fuel self key =
  Ok (PyNone, if slot_eq (slot_at self p) key then tombstoned self p else self).
Proof.
  intros Hf Hp. rewrite del_fuel_probe.
  rewrite (probe_first_stop self Hwf _ _ _ p (home_range key) (size_fuel _ Hf) Hp).
  reflexivity.
Qed.

Lemma del_fuel_no_stop fuel key :
  (Z.to_nat (size self) <= fuel)%nat ->
  no_stop (stop_get key) self (key mod size self) ->
  del_fuel fuel self key = Ok (PyNone, self).
Proof.
  intros Hf Hp. rewrite del_fuel_probe.
  rewrite (probe_no_stop self Hwf _ _ _ (home_range key) (size_fuel _ Hf) Hp).
  reflexivity.
Qed.

(** Either a first stopping cell exists or none does. *)
Lemma stop_decided stop h :
  0 <= h < size self ->
  (exists p, first_stop stop self h p) \/ no_stop stop self h.
Proof.
  intros Hh.
  destruct (probe_decided self Hwf stop h (Z.to_nat (size self)) Hh) as [(p & Hp & _)|[Hn _]];
    [lia|left; now exists p|now right].
Qed.
End Loops.

(** ** The cells after a write *)

Section Writes.
Variable self : HashTable.t.
Hypothesis Hwf : wf self.
Variable p : Z.
Hypothesis Hp : 0 <= p < size self.

Lemma wf_written key value : wf (written self p key value).
Proof.
  destruct Hwf as (H1 & H2 & H3). unfold wf, written; cbn.
  rewrite !length_insert. auto.
Qed.

Lemma wf_overwritten value : wf (overwritten self p value).
Proof.
  destruct Hwf as (H1 & H2 & H3). unfold wf, overwritten; cbn.
  rewrite !length_insert. auto.
Qed.

Lemma wf_tombstoned : wf (tombstoned self p).
Proof.
  destruct Hwf as (H1 & H2 & H3). unfold wf, tombstoned; cbn.
  rewrite !length_insert. auto.
Qed.

Lemma lookup_insert_here {A : Type} (l : list A) (x d : A) :
  Z.of_nat (length l) = size self ->
  default d (<[Z.to_nat p := x]> l !! Z.to_nat p) = x.
Proof. intros Hl. rewrite list_lookup_insert_eq; [reflexivity|lia]. Qed.

Lemma lookup_insert_there {A : Type} (l : list A) (x d : A) (q : Z) :
  0 <= q -> q <> p ->
  default d (<[Z.to_nat p := x]> l !! Z.to_nat q) = default d (l !! Z.to_nat q).
Proof. intros Hq Hne. rewrite list_lookup_insert_ne; [reflexivity|lia]. Qed.

Lemma slot_at_written_eq key value : slot_at (written self p key value) p = Key key.
Proof. apply lookup_insert_here, Hwf. Qed.

Lemma slot_at_written_ne key value q :
  0 <= q -> q <> p -> slot_at (written self p key value) q = slot_at self q.
Proof. apply lookup_insert_there. Qed.

Lemma value_at_written_eq key value : value_at (written self p key value) p = value.
Proof. apply lookup_insert_here, Hwf. Qed.

Lemma value_at_written_ne key value q :
  0 <= q -> q <> p -> value_at (written self p key value) q = value_at self q.
Proof. apply lookup_insert_there. Qed.

Lemma slot_at_overwritten value q : slot_at (overwritten self p value) q = slot_at self q.
Proof. reflexivity. Qed.

Lemma value_at_overwritten_eq value : value_at (overwritten self p value) p = value.
Proof. apply lookup_insert_here, Hwf. Qed.

Lemma value_at_overwritten_ne value q :
  0 <= q -> q <> p -> value_at (overwritten self p value) q = value_at self q.
Proof. apply lookup_insert_there. Qed.

Lemma slot_at_tombstoned_eq : slot_at (tombstoned self p) p = Deleted.
Proof. apply lookup_insert_here, Hwf. Qed.

Lemma slot_at_tombstoned_ne q :
  0 <= q -> q <> p -> slot_at (tombstoned self p) q = slot_at self q.
Proof. apply lookup_insert_there. Qed.

Lemma value_at_tombstoned_ne q :
  0 <= q -> q <> p -> value_at (tombstoned self p) q = value_at self q.
Proof. apply lookup_insert_there. Qed.
End Writes.

(** A first stopping cell stays one when the table changes, as long as the
    cell still stops the walk and no cell before it starts to. *)
Lemma first_stop_transfer stop stop' self self' h p :
  wf self -> size self' = size self ->
  stop' (slot_at self' p) = true ->
  (forall q, 0 <= q < size self -> q <> p ->
     stop (slot_at self q) = false -> stop' (slot_at self' q) = false) ->
  first_stop stop self h p -> first_stop stop' self' h p.
Proof.
  intros Hwf Hsz Hs' Hother (j & Hj & Hpj & Hs & Hb).
  assert (Epos : forall i, pos self' h i = pos self h i).
  { intros i. unfold pos. now rewrite Hsz. }
  exists j. rewrite Hsz, Epos. split; [assumption|]. split; [assumption|].
  split; [assumption|]. intros j' Hj'. rewrite Epos.
  apply Hother.
  - apply pos_range, Hwf.
  - rewrite Hpj. intros E. apply (pos_inj self Hwf) in E; lia.
  - now apply Hb.
Qed.

(** ** What the methods return *)

Section Methods.
Variable self : HashTable.t.
Hypothesis Hwf : wf self.

Lemma put_cases key value :
  (exists p, first_stop (stop_put key) self (key mod size self) p /\
     slot_at self p = Key key /\
     put self key value = Ok (overwritten self p value))
  \/ (exists p, first_stop (stop_put key) self (key mod size self) p /\
     (slot_at self p = Empty \/ slot_at self p = Deleted) /\
     put self key value = Ok (written self p key value))
  \/ (no_stop (stop_put key) self (key mod size self) /\
     put self key value = Raise (ValueError full_msg)).
Proof.
  unfold put.
  destruct (stop_decided self Hwf (stop_put key) (key mod size self))
    as [(p & Hp)|Hn]; [apply home_range, Hwf| |].
  - rewrite (put_fuel_first_stop self Hwf _ key value p) by (lia || assumption).
    assert (Hs : stop_put key (slot_at self p) = true) by (destruct Hp as (j & _ & _ & Hs & _); exact Hs).
    destruct (slot_at self p) as [| |k] eqn:Es; cbn in *.
    + right; left. exists p. rewrite Es. auto.
    + right; left. exists p. rewrite Es. auto.
    + left. exists p. apply Z.eqb_eq in Hs as ->. rewrite Z.eqb_refl. auto.
  - right; right. split; [assumption|]. now apply put_fuel_no_stop.
Qed.

Lemma get_finds key p : finds self key p -> get self key = Ok (value_at self p).
Proof.
  intros [Hp Es]. unfold get.
  rewrite (get_fuel_first_stop self Hwf _ key p) by (lia || assumption).
  rewrite Es. cbn. now rewrite Z.eqb_refl.
Qed.

Lemma del_finds key p : finds self key p -> del_ self key = Ok (PyNone, tombstoned self p).
Proof.
  intros [Hp Es]. unfold del_.
  rewrite (del_fuel_first_stop self Hwf _ key p) by (lia || assumption).
  rewrite Es. cbn. now rewrite Z.eqb_refl.
Qed.

Lemma finds_decided key :
  (exists p, finds self key p) \/
  ((forall p, ~ finds self key p) /\
   get self key = Ok PyNone /\ del_ self key = Ok (PyNone, self)).
Proof.
  unfold get, del_.
  destruct (stop_decided self Hwf (stop_get key) (key mod size self))
    as [(p & Hp)|Hn]; [apply home_range, Hwf| |].
  - assert (Hs : stop_get key (slot_at self p) = true) by (destruct Hp as (j & _ & _ & Hs & _); exact Hs).
    destruct (slot_at self p) as [| |k] eqn:Es; cbn in Hs; try discriminate.
    + right. split; [|split].
      * intros q [Hq Eq]. rewrite <- (first_stop_unique self _ _ _ _ Hp Hq) in Eq. congruence.
      * rewrite (get_fuel_first_stop self Hwf _ key p) by (lia || assumption).
        now rewrite Es.
      * rewrite (del_fuel_first_stop self Hwf _ key p) by (lia || assumption).
        now rewrite Es.
    + left. exists p. apply Z.eqb_eq in Hs as ->. now split.
  - right. split; [|split].
    + intros q [Hq _]. exact (first_stop_not_none self _ _ _ Hq Hn).
    + now apply get_fuel_no_stop.
    + now apply del_fuel_no_stop.
Qed.

Lemma finds_unique key p q : finds self key p -> finds self key q -> p = q.
Proof. intros [Hp _] [Hq _]. exact (first_stop_unique self _ _ _ _ Hp Hq). Qed.

(** A successful [put] leaves the key where [get] will find it. *)
Lemma put_finds key value self' :
  put self key value = Ok self' ->
  wf self' /\ size self' = size self /\
  exists p, finds self' key p /\ value_at self' p = value.
Proof.
  intros Hput.
  destruct (put_cases key value) as [(p & Hp & Es & E)|[(p & Hp & Es & E)|[_ E]]];
    rewrite E in Hput; try discriminate; injection Hput as <-;
    pose proof (first_stop_range self Hwf _ _ _ Hp) as Hr.
  - split; [now apply wf_overwritten|]. split; [reflexivity|].
    exists p. split; [split|].
    + apply (first_stop_transfer (stop_put key) (stop_get key) self); try assumption.
      * reflexivity.
      * rewrite slot_at_overwritten, Es. cbn. now rewrite Z.eqb_refl.
      * intros q _ _. rewrite slot_at_overwritten. unfold stop_put, stop_get.
        destruct (slot_at self q); cbn; congruence.
    + now rewrite slot_at_overwritten.
    + now apply value_at_overwritten_eq.
  - split; [now apply wf_written|]. split; [reflexivity|].
    exists p. split; [split|].
    + apply (first_stop_transfer (stop_put key) (stop_get key) self); try assumption.
      * reflexivity.
      * rewrite slot_at_written_eq by assumption. cbn. now rewrite Z.eqb_refl.
      * intros q Hq Hne. rewrite slot_at_written_ne by lia. unfold stop_put, stop_get.
        destruct (slot_at self q); cbn; congruence.
    + now apply slot_at_written_eq.
    + now apply value_at_written_eq.
Qed.
End Methods.

(** ** Changes to one key leave the others where they are *)

Lemma put_keeps_other self key value self' key' q :
  wf self -> key <> key' ->
  put self key value = Ok self' -> finds self key' q ->
  finds self' key' q /\ value_at self' q = value_at self q.
Proof.
  intros Hwf Hne Hput [Hq Eq].
  pose proof (first_stop_range self Hwf _ _ _ Hq) as Hqr.
  destruct (put_cases self Hwf key value) as [(p & Hp & Es & E)|[(p & Hp & Es & E)|[_ E]]];
    rewrite E in Hput; try discriminate; injection Hput as <-;
    pose proof (first_stop_range self Hwf _ _ _ Hp) as Hr;
    (assert (Hpq : q <> p) by (intros ->; first [congruence|destruct Es; congruence])).
  - split; [split|].
    + revert Hq. apply first_stop_transfer; try assumption; try reflexivity.
      * rewrite slot_at_overwritten, Eq. cbn. now rewrite Z.eqb_refl.
      * intros x _ _ Hx. exact Hx.
    + exact Eq.
    + apply value_at_overwritten_ne; (assumption || lia).
  - split; [split|].
    + revert Hq. apply first_stop_transfer; try assumption; try reflexivity.
      * rewrite slot_at_written_ne by (assumption || lia). rewrite Eq. cbn.
        now rewrite Z.eqb_refl.
      * intros x Hx _ Hsx. destruct (Z.eq_dec x p) as [->|Hxp].
        -- rewrite slot_at_written_eq by assumption. cbn.
           now apply Z.eqb_neq.
        -- now rewrite slot_at_written_ne by (assumption || lia).
    + rewrite slot_at_written_ne by (assumption || lia). exact Eq.
    + apply value_at_written_ne; (assumption || lia).
Qed.

Lemma del_keeps_other self key r self' key' q :
  wf self -> key <> key' ->
  del_ self key = Ok (r, self') -> finds self key' q ->
  finds self' key' q /\ value_at self' q = value_at self q.
Proof.
  intros Hwf Hne Hdel [Hq Eq].
  pose proof (first_stop_range self Hwf _ _ _ Hq) as Hqr.
  destruct (finds_decided self Hwf key) as [(p & Hp)|(_ & _ & E)].
  - rewrite (del_finds self Hwf key p Hp) in Hdel. injection Hdel as <- <-.
    destruct Hp as [Hp Es].
    pose proof (first_stop_range self Hwf _ _ _ Hp) as Hr.
    assert (Hpq : q <> p) by (intros ->; congruence).
    split; [split|].
    + revert Hq. apply first_stop_transfer; try assumption; try reflexivity.
      * rewrite slot_at_tombstoned_ne by (assumption || lia). rewrite Eq. cbn.
        now rewrite Z.eqb_refl.
      * intros x Hx _ Hsx. destruct (Z.eq_dec x p) as [->|Hxp].
        -- now rewrite slot_at_tombstoned_eq by assumption.
        -- now rewrite slot_at_tombstoned_ne by (assumption || lia).
    + rewrite slot_at_tombstoned_ne by (assumption || lia). exact Eq.
    + apply value_at_tombstoned_ne; (assumption || lia).
  - rewrite E in Hdel. injection Hdel as <- <-. now split.
Qed.

(** ** Well-formedness is kept *)

Lemma wf_put self key value self' :
  wf self -> put self key value = Ok self' -> wf self'.
Proof. intros Hwf Hput. now destruct (put_finds self Hwf key value self' Hput). Qed.

Lemma wf_del self key r self' :
  wf self -> del_ self key = Ok (r, self') -> wf self'.
Proof.
  intros Hwf Hdel.
  destruct (finds_decided self Hwf key) as [(p & Hp)|(_ & _ & E)].
  - rewrite (del_finds self Hwf key p Hp) in Hdel. injection Hdel as <- <-.
    now apply wf_tombstoned.
  - rewrite E in Hdel. now injection Hdel as <- <-.
Qed.

(** ** A tombstone in front of a key *)

(** When the walk for a key that is in the table meets a tombstone before
    it meets the key, [put] writes the key into the tombstone's cell and
    the key then sits in two cells. *)
Lemma put_into_tombstone self key value p q :
  wf self -> finds self key p ->
  first_stop (stop_put key) self (key mod size self) q -> q <> p ->
  slot_at self q = Deleted /\
  put self key value = Ok (written self q key value) /\
  slot_at (written self q key value) q = Key key /\
  slot_at (written self q key value) p = Key key.
Proof.
  intros Hwf [Hp Ep] Hq Hne.
  pose proof (first_stop_range self Hwf _ _ _ Hq) as Hqr.
  pose proof (first_stop_range self Hwf _ _ _ Hp) as Hpr.
  assert (Hs : stop_put key (slot_at self q) = true)
    by (destruct Hq as (j & _ & _ & Hs & _); exact Hs).
  assert (Hg : stop_get key (slot_at self q) = true -> q = p).
  { intros Hsg.
    apply (first_stop_unique self (stop_get key) (key mod size self)); [|exact Hp].
    revert Hq. apply first_stop_transfer; try assumption; try reflexivity.
    intros x _ _. unfold stop_put, stop_get. destruct (slot_at self x); cbn; congruence. }
  assert (Eq : slot_at self q = Deleted).
  { destruct (slot_at self q) as [| |k] eqn:E; [|reflexivity|].
    - destruct Hne. now apply Hg.
    - destruct Hne. apply Hg. exact Hs. }
  split; [exact Eq|]. split; [|split].
  - unfold put. rewrite (put_fuel_first_stop self Hwf _ key value q) by (lia || assumption).
    now rewrite Eq.
  - now apply slot_at_written_eq.
  - rewrite slot_at_written_ne by (assumption || lia || congruence). exact Ep.
Qed.

(** ** A fresh table *)

Lemma wf_init n : 0 < n -> wf (__init__ n).
Proof.
  intros Hn. unfold wf, __init__; cbn. rewrite !length_replicate. lia.
Qed.

Lemma slot_at_init n p : slot_at (__init__ n) p = Empty.
Proof.
  unfold slot_at, __init__; cbn.
  destruct (replicate (Z.to_nat n) Empty !! Z.to_nat p) as [x|] eqn:E; [|reflexivity].
  apply lookup_replicate in E as [-> _]. reflexivity.
Qed.

Lemma get_init n key : 0 < n -> get (__init__ n) key = Ok PyNone.
Proof.
  intros Hn.
  destruct (finds_decided (__init__ n) (wf_init n Hn) key) as [(p & _ & Es)|(_ & E & _)];
    [|exact E].
  rewrite slot_at_init in Es. discriminate.
Qed.

(** More fuel than [size] changes nothing. *)
Lemma probe_fuel_enough self stop h n :
  wf self -> 0 <= h < size self -> (Z.to_nat (size self) <= n)%nat ->
  probe n stop self h h = probe (Z.to_nat (size self)) stop self h h.
Proof.
  intros Hwf Hh Hn.
  destruct (stop_decided self Hwf stop h Hh) as [(p & Hp)|Hnone].
  - rewrite !(probe_first_stop self Hwf stop h _ p); (reflexivity || assumption || lia).
  - rewrite !(probe_no_stop self Hwf stop h); (reflexivity || assumption || lia).
Qed.

(** ** Counting occupied cells *)

Lemma count_keys_cons slot l :
  count_keys (slot :: l) = (if is_key slot then 1 else 0) + count_keys l.
Proof. unfold count_keys. cbn. destruct (is_key slot); cbn [length]; lia. Qed.

Lemma count_keys_bounds l : 0 <= count_keys l <= Z.of_nat (length l).
Proof.
  induction l as [|slot l IH]; [unfold count_keys; cbn; lia|].
  rewrite count_keys_cons. cbn [length]. destruct (is_key slot); lia.
Qed.

Lemma count_keys_insert l k :
  forall n, (n < length l)%nat -> is_key (default Empty (l !! n)) = false ->
    count_keys (<[n := Key k]> l) = count_keys l + 1.
Proof.
  induction l as [|slot l IH]; intros n Hn Hs; [cbn in Hn; lia|].
  destruct n as [|n]; cbn in Hs |- *.
  - rewrite !count_keys_cons, Hs. cbn. lia.
  - rewrite !count_keys_cons, IH; [lia| |assumption]. cbn in Hn. lia.
Qed.

Lemma count_keys_all l :
  (forall n, (n < length l)%nat -> is_key (default Empty (l !! n)) = true) ->
  count_keys l = Z.of_nat (length l).
Proof.
  induction l as [|slot l IH]; intros H; [reflexivity|].
  rewrite count_keys_cons, IH.
  - specialize (H 0%nat). cbn in H. rewrite H; cbn [length]; lia.
  - intros n Hn. apply (H (S n)). cbn. lia.
Qed.

Lemma count_keys_replicate n : count_keys (replicate n Empty) = 0.
Proof. induction n as [|n IH]; [reflexivity|]. cbn [replicate]. now rewrite count_keys_cons. Qed.

(** ** Tables built by [put] alone *)

Lemma Inv_get self k v : Inv self -> holds self k v -> get self k = Ok v.
Proof.
  intros (Hwf & _ & Hf & _) (p & Hp & Es & <-). apply get_finds; auto.
Qed.

Lemma Inv_init n : 0 < n -> Inv (__init__ n).
Proof.
  intros Hn. split; [now apply wf_init|]. split; [|split].
  - intros p _. now rewrite slot_at_init.
  - intros p k _ Es. rewrite slot_at_init in Es. discriminate.
  - cbn. now rewrite count_keys_replicate.
Qed.

Lemma holds_init n k v : ~ holds (__init__ n) k v.
Proof. intros (p & _ & Es & _). rewrite slot_at_init in Es. discriminate. Qed.

(** [put] on such a table with a free cell: it succeeds, keeps the
    invariant, and changes the contents at [key] only. *)
Lemma put_Inv self key value :
  Inv self -> _len self < size self ->
  exists self', put self key value = Ok self' /\ Inv self' /\
    size self' = size self /\
    (forall k v, holds self' k v <->
       (k = key /\ v = value) \/ (k <> key /\ holds self k v)) /\
    ((forall v, ~ holds self key v) -> _len self' = _len self + 1) /\
    _len self' <= _len self + 1.
Proof.
  intros (Hwf & Hnd & Hf & Hlen) Hroom.
  destruct (put_cases self Hwf key value)
    as [(p & Hp & Es & E)|[(p & Hp & Es & E)|[Hfull _]]].
  - pose proof (first_stop_range self Hwf _ _ _ Hp) as Hr.
    exists (overwritten self p value). split; [exact E|].
    split; [|split; [reflexivity|split; [|split]]].
    + split; [now apply wf_overwritten|].
      split; [exact Hnd|]. split; [exact Hf|exact Hlen].
    + intros k v. split.
      * intros (q & Hq & Eq & Ev).
        change (0 <= q < size self) in Hq. change (slot_at self q = Key k) in Eq.
        destruct (Z.eq_dec k key) as [->|Hk].
        -- left. split; [reflexivity|].
           assert (q = p) as -> by (apply (finds_unique self key); now apply Hf).
           rewrite <- Ev. now apply value_at_overwritten_eq.
        -- right. split; [assumption|]. exists q. split; [assumption|].
           split; [assumption|]. rewrite <- Ev. symmetry.
           apply value_at_overwritten_ne; try lia. intros ->. congruence.
      * intros [[-> ->]|[Hk (q & Hq & Eq & Ev)]].
        -- exists p. split; [exact Hr|]. split; [exact Es|].
           now apply value_at_overwritten_eq.
        -- exists q. split; [exact Hq|]. split; [exact Eq|].
           rewrite <- Ev. apply value_at_overwritten_ne; try lia. intros ->. congruence.
    + intros Hno. exfalso. apply (Hno (value_at self p)). exists p. auto.
    + cbn. lia.
  - pose proof (first_stop_range self Hwf _ _ _ Hp) as Hr.
    destruct Es as [Es|Es]; [|destruct (Hnd p Hr Es)].
    assert (Hfresh : forall q, 0 <= q < size self -> slot_at self q <> Key key).
    { intros q Hq Eq. pose proof (Hf q key Hq Eq) as [Hqf _].
      assert (Hpf : first_stop (stop_get key) self (key mod size self) p).
      { revert Hp. apply first_stop_transfer; try assumption; try reflexivity.
        - rewrite Es. reflexivity.
        - intros x _ _. unfold stop_put, stop_get.
          destruct (slot_at self x); cbn; congruence. }
      rewrite (first_stop_unique self _ _ _ _ Hqf Hpf) in Eq. congruence. }
    pose proof (wf_written self Hwf p key value) as Hwf'.
    exists (written self p key value). split; [exact E|].
    split; [|split; [reflexivity|split; [|split]]].
    + split; [exact Hwf'|]. split; [|split].
      * intros q Hq. change (0 <= q < size self) in Hq.
        destruct (Z.eq_dec q p) as [->|Hqp].
        -- now rewrite slot_at_written_eq.
        -- rewrite slot_at_written_ne by (assumption || lia). now apply Hnd.
      * intros q k Hq Eq. change (0 <= q < size self) in Hq.
        destruct (Z.eq_dec q p) as [->|Hqp].
        -- rewrite slot_at_written_eq in Eq by assumption. injection Eq as <-.
           destruct (put_finds self Hwf key value _ E) as (_ & _ & p' & Hp' & _).
           destruct (Z.eq_dec p' p) as [->|Hne]; [exact Hp'|]. exfalso.
           destruct Hp' as [Hp1 Hp2].
           pose proof (first_stop_range _ Hwf' _ _ _ Hp1) as Hr'.
           change (0 <= p' < size self) in Hr'.
           rewrite slot_at_written_ne in Hp2 by (assumption || lia).
           exact (Hfresh p' Hr' Hp2).
        -- rewrite slot_at_written_ne in Eq by (assumption || lia).
           assert (Hk : key <> k) by (intros <-; exact (Hfresh q Hq Eq)).
           exact (proj1 (put_keeps_other self key value _ k q Hwf Hk E (Hf q k Hq Eq))).
      * cbn. rewrite count_keys_insert; [lia| |].
        -- destruct Hwf as (_ & Hk & _). lia.
        -- fold (slot_at self p). now rewrite Es.
    + intros k v. split.
      * intros (q & Hq & Eq & Ev). change (0 <= q < size self) in Hq.
        destruct (Z.eq_dec q p) as [->|Hqp].
        -- rewrite slot_at_written_eq in Eq by assumption. injection Eq as <-.
           rewrite value_at_written_eq in Ev by assumption. now left.
        -- rewrite slot_at_written_ne in Eq by (assumption || lia).
           rewrite value_at_written_ne in Ev by (assumption || lia).
           right. split; [|now exists q].
           intros ->. exact (Hfresh q Hq Eq).
      * intros [[-> ->]|[Hk (q & Hq & Eq & Ev)]].
        -- exists p. split; [exact Hr|].
           split; [now apply slot_at_written_eq|now apply value_at_written_eq].
        -- assert (Hqp : q <> p) by (intros ->; congruence).
           exists q. split; [exact Hq|].
           rewrite slot_at_written_ne, value_at_written_ne by (assumption || lia).
           now split.
    + intros _. reflexivity.
    + cbn. lia.
  - exfalso.
    assert (Hall : count_keys (_keys self) = Z.of_nat (length (_keys self))).
    { apply count_keys_all. intros n Hn.
      destruct (pos_cover self Hwf (key mod size self) (Z.of_nat n)) as (j & Hj & Ej).
      { destruct Hwf as (_ & Hk & _). lia. }
      specialize (Hfull j Hj). rewrite <- Ej in Hfull.
      unfold slot_at in Hfull. rewrite Nat2Z.id in Hfull.
      now destruct (default Empty (_keys self !! n)). }
    destruct Hwf as (_ & Hk & _). lia.
Qed.

(** ** Growth *)

Lemma distinct_keys_tail e es : distinct_keys (e :: es) -> distinct_keys es.
Proof.
  intros H i j k v v' Hi Hj. specialize (H (S i) (S j) k v v' Hi Hj). lia.
Qed.

Lemma distinct_keys_head k v es v' : distinct_keys ((Key k, v) :: es) -> (Key k, v') ∉ es.
Proof.
  intros H Hin. apply list_elem_of_lookup in Hin as [j Hj].
  specialize (H 0%nat (S j) k v v' eq_refl Hj). lia.
Qed.

Lemma slot_lookup self p :
  wf self -> 0 <= p < size self -> _keys self !! Z.to_nat p = Some (slot_at self p).
Proof.
  intros (_ & Hk & _) Hp. unfold slot_at.
  destruct (_keys self !! Z.to_nat p) eqn:E; [reflexivity|].
  apply lookup_ge_None in E. lia.
Qed.

Lemma value_lookup self p :
  wf self -> 0 <= p < size self -> _values self !! Z.to_nat p = Some (value_at self p).
Proof.
  intros (_ & _ & Hv) Hp. unfold value_at.
  destruct (_values self !! Z.to_nat p) eqn:E; [reflexivity|].
  apply lookup_ge_None in E. lia.
Qed.

(** The pairs [_resize] walks over are the contents of the table. *)
Lemma zip_holds self k v :
  wf self -> (Key k, v) ∈ zip (_keys self) (_values self) <-> holds self k v.
Proof.
  intros Hwf. rewrite list_elem_of_lookup. split.
  - intros (i & Hi). apply lookup_zip_Some in Hi as [Hk Hv].
    pose proof (lookup_lt_Some _ _ _ Hk) as Hlt.
    exists (Z.of_nat i). destruct Hwf as (Hs & Hlk & Hlv).
    split; [lia|]. unfold slot_at, value_at. rewrite Nat2Z.id, Hk, Hv. now split.
  - intros (p & Hp & Es & Ev). exists (Z.to_nat p). apply lookup_zip_Some.
    rewrite slot_lookup, value_lookup by assumption. now rewrite Es, Ev.
Qed.

Lemma zip_distinct self : Inv self -> distinct_keys (zip (_keys self) (_values self)).
Proof.
  intros (Hwf & _ & Hf & _) i j k v v' Hi Hj.
  apply lookup_zip_Some in Hi as [Hi _]. apply lookup_zip_Some in Hj as [Hj _].
  pose proof (lookup_lt_Some _ _ _ Hi) as Hli.
  pose proof (lookup_lt_Some _ _ _ Hj) as Hlj.
  assert (Hs : forall n, (n < length (_keys self))%nat -> _keys self !! n = Some (Key k) ->
                 finds self k (Z.of_nat n)).
  { intros n Hn Hk. apply Hf.
    - destruct Hwf as (_ & Hlk & _). lia.
    - unfold slot_at. now rewrite Nat2Z.id, Hk. }
  pose proof (finds_unique self k _ _ (Hs i Hli Hi) (Hs j Hlj Hj)). lia.
Qed.

Section Growth.
Variable resize_due : HashTable.t -> bool.

(** What the proofs need of the test: it is not met on a table at most
    half full, and a table on which it is not met has a free cell. *)
Hypothesis due_half : forall u, 6 <= size u -> 0 <= 2 * _len u <= size u ->
  resize_due u = false.
Hypothesis due_room : forall u, 0 < size u -> resize_due u = false ->
  _len u < size u.

Local Abbreviation rput := (ResizableHashTable.put resize_due).

(** At most half full after it, the overriding [put] is the plain one. *)
Lemma rput_below self key value d :
  Inv self -> 6 <= size self -> 2 * (_len self + 1) <= size self ->
  exists self', rput (S d) self key value = Ok self' /\ Inv self' /\
    size self' = size self /\
    (forall k v, holds self' k v <->
       (k = key /\ v = value) \/ (k <> key /\ holds self k v)) /\
    ((forall v, ~ holds self key v) -> _len self' = _len self + 1) /\
    _len self' <= _len self + 1.
Proof.
  intros HInv Hsz Hlow.
  assert (Hroom : _len self < size self) by lia.
  destruct (put_Inv self key value HInv Hroom) as (self' & E & HInv' & Hsz' & Hh & Hl & Hle).
  exists self'. split; [|auto 10].
  cbn [ResizableHashTable.put]. rewrite E. cbn [bind].
  rewrite due_half; [reflexivity|lia|].
  destruct HInv' as (_ & _ & _ & Hc). pose proof (count_keys_bounds (_keys self')). lia.
Qed.

Lemma reinsert_Inv d :
  forall es u,
    Inv u -> distinct_keys es ->
    (forall k v v', (Key k, v) ∈ es -> ~ holds u k v') ->
    6 <= size u -> 2 * (_len u + Z.of_nat (length es)) <= size u ->
    exists u', ResizableHashTable.reinsert (rput (S d)) es u = Ok u' /\
      Inv u' /\ size u' = size u /\
      _len u' = _len u + count_keys es.*1 /\
      forall k v, holds u' k v <-> holds u k v \/ (Key k, v) ∈ es.
Proof.
  induction es as [|[slot value] es IH]; intros u HInv Hd Hnew Hsz Hlen.
  - exists u. split; [reflexivity|]. split; [assumption|]. split; [reflexivity|].
    split; [unfold count_keys; cbn; lia|].
    intros k v. split; [now left|].
    intros [H|H]; [assumption|]. now apply elem_of_nil in H.
  - assert (Hskip : slot <> Key (match slot with Key k => k | _ => 0 end) ->
      exists u', ResizableHashTable.reinsert (rput (S d)) ((slot, value) :: es) u = Ok u' /\
        Inv u' /\ size u' = size u /\
        _len u' = _len u + count_keys ((slot, value) :: es).*1 /\
        forall k v, holds u' k v <-> holds u k v \/ (Key k, v) ∈ (slot, value) :: es).
    { intros Hslot.
      destruct (IH u HInv (distinct_keys_tail _ _ Hd)) as (u' & E & HInv' & Hsz' & Hl & Hh).
      - intros k v v' Hin. apply (Hnew k v). now apply elem_of_cons; right.
      - assumption.
      - cbn [length] in Hlen. lia.
      - exists u'. split; [destruct slot; try exact E; congruence|].
        split; [assumption|]. split; [assumption|]. split.
        + cbn [fmap list_fmap fst]. rewrite count_keys_cons.
          destruct slot; cbn; try lia. congruence.
        + intros k v. rewrite Hh, elem_of_cons. split; [tauto|].
          intros [H|[H|H]]; [tauto| |tauto].
          injection H as <- _. congruence. }
    destruct slot as [| |key]; [apply Hskip; discriminate..|]. clear Hskip.
    assert (Hk : forall v, ~ holds u key v).
    { intros v. apply (Hnew key value). now apply elem_of_cons; left. }
    cbn [length] in Hlen.
    destruct (rput_below u key value d HInv Hsz) as (u1 & E1 & HInv1 & Hsz1 & Hh1 & Hl1 & _);
      [lia|]. specialize (Hl1 Hk).
    destruct (IH u1 HInv1 (distinct_keys_tail _ _ Hd)) as (u' & E & HInv' & Hsz' & Hl & Hh).
    + intros k v v' Hin Hholds. apply Hh1 in Hholds as [[-> _]|[_ Hholds]].
      * exact (distinct_keys_head _ _ _ _ Hd Hin).
      * apply (Hnew k v v'); [|assumption]. now apply elem_of_cons; right.
    + lia.
    + rewrite Hsz1. lia.
    + exists u'. split; [cbn [ResizableHashTable.reinsert]; rewrite E1; exact E|].
      split; [assumption|]. split; [congruence|]. split.
      * cbn [fmap list_fmap fst]. rewrite count_keys_cons. cbn. lia.
      * intros k v. rewrite Hh, Hh1, elem_of_cons. split.
        -- intros [[[-> ->]|[_ H]]|H]; auto.
        -- intros [H|[H|H]]; [|injection H as -> ->; auto|auto].
           left. right. split; [|assumption]. intros ->. exact (Hk v H).
Qed.

(** [_resize] on a table built by [put] alone: the table doubles, the
    contents and [_len] are those of the old table, and no nested resize
    is set off. *)
Lemma resize_Inv self d :
  Inv self -> 3 <= size self ->
  exists self', ResizableHashTable._resize (rput (S d)) self = Ok self' /\
    Inv self' /\ size self' = size self * 2 /\ _len self' = _len self /\
    forall k v, holds self' k v <-> holds self k v.
Proof.
  intros HInv Hsz. pose proof HInv as (Hwf & _ & _ & Hlen).
  unfold ResizableHashTable._resize.
  change (HashTable.mk (size self * 2) 0 _ _) with (__init__ (size self * 2)).
  destruct (reinsert_Inv d (zip (_keys self) (_values self)) (__init__ (size self * 2)))
    as (self' & E & HInv' & Hsz' & Hl & Hh).
  - apply Inv_init. lia.
  - now apply zip_distinct.
  - intros k v v' _. apply holds_init.
  - cbn. lia.
  - rewrite length_zip. destruct Hwf as (_ & Hlk & Hlv). cbn. lia.
  - exists self'. split; [exact E|]. split; [assumption|]. split; [exact Hsz'|]. split.
    + rewrite Hl, fst_zip, Hlen; [reflexivity|]. destruct Hwf as (_ & Hlk & Hlv). lia.
    + intros k v. rewrite Hh, (zip_holds self k v Hwf). split; [|tauto].
      intros [H|H]; [destruct (holds_init _ _ _ H)|assumption].
Qed.

(** One [put] of the growing table. *)
Lemma rput_RInv self key value d :
  RInv resize_due self ->
  exists self', rput (S (S d)) self key value = Ok self' /\ RInv resize_due self' /\
    (forall k v, holds self' k v <->
       (k = key /\ v = value) \/ (k <> key /\ holds self k v)) /\
    ((forall v, ~ holds self key v) -> _len self' = _len self + 1).
Proof.
  intros (HInv & Hsz & Hlow).
  assert (Hroom : _len self < size self) by (apply due_room; [lia|assumption]).
  destruct (put_Inv self key value HInv Hroom) as (self1 & E & HInv1 & Hsz1 & Hh & Hl & Hle).
  cbn [ResizableHashTable.put]. rewrite E. cbn [bind].
  destruct (resize_due self1) eqn:Hdue.
  - destruct (resize_Inv self1 d HInv1) as (self' & E' & HInv' & Hsz' & Hl' & Hh'); [lia|].
    exists self'. split; [exact E'|]. split; [|split].
    + split; [assumption|]. split; [lia|]. apply due_half; [lia|].
      destruct HInv1 as (_ & _ & _ & Hc). pose proof (count_keys_bounds (_keys self1)). lia.
    + intros k v. now rewrite Hh', Hh.
    + intros Hno. rewrite Hl'. now apply Hl.
  - exists self1. split; [reflexivity|]. split; [|split; assumption].
    split; [assumption|]. split; [lia|assumption].
Qed.

(** A run of [put] calls with keys that are new to the table and differ
    from one another. *)
Lemma puts_RInv d :
  forall entries self done,
    RInv resize_due self ->
    (forall k v, holds self k v <-> (k, v) ∈ done) ->
    _len self = Z.of_nat (length done) ->
    NoDup (done ++ entries).*1 ->
    exists self', ResizableHashTable.puts resize_due (S (S d)) self entries = Ok self' /\
      RInv resize_due self' /\
      (forall k v, holds self' k v <-> (k, v) ∈ done ++ entries) /\
      _len self' = Z.of_nat (length (done ++ entries)).
Proof.
  induction entries as [|[key value] entries IH]; intros self done HR Hh Hl Hnd.
  - exists self. rewrite app_nil_r. now split.
  - assert (Hnew : key ∉ done.*1).
    { rewrite fmap_app in Hnd. apply NoDup_app in Hnd as (_ & Hdis & _).
      intros Hin. apply (Hdis key Hin). cbn. apply elem_of_cons. now left. }
    assert (Hno : forall v, ~ holds self key v).
    { intros v Hv. apply Hh in Hv. apply Hnew.
      apply list_elem_of_fmap. now exists (key, v). }
    destruct (rput_RInv self key value d HR) as (self1 & E1 & HR1 & Hh1 & Hl1).
    specialize (Hl1 Hno).
    destruct (IH self1 (done ++ [(key, value)])) as (self' & E & HR' & Hh' & Hl').
    + assumption.
    + intros k v. rewrite Hh1, elem_of_app, list_elem_of_singleton, Hh. split.
      * intros [[-> ->]|[_ H]]; auto.
      * intros [H|H]; [|injection H as -> ->; auto].
        right. split; [|assumption]. intros ->. exact (Hno v (proj2 (Hh key v) H)).
    + rewrite length_app. cbn. lia.
    + now rewrite <- app_assoc.
    + exists self'. rewrite <- app_assoc in Hh', Hl'.
      split; [cbn [ResizableHashTable.puts]; rewrite E1; exact E|].
      now split.
Qed.

(** From the fresh table of capacity 8. *)
Lemma puts_from_init entries depth :
  NoDup entries.*1 -> (2 <= depth)%nat ->
  exists self,
    ResizableHashTable.puts resize_due depth ResizableHashTable.__init__ entries = Ok self /\
    (forall k v, (k, v) ∈ entries -> get self k = Ok v) /\
    __len__ self = Z.of_nat (length entries).
Proof.
  intros Hnd Hdepth.
  destruct depth as [|[|d]]; try lia.
  destruct (puts_RInv d entries ResizableHashTable.__init__ []) as (self & E & HR & Hh & Hl).
  - split; [apply Inv_init; reflexivity|].
    unfold ResizableHashTable.__init__, ResizableHashTable.MIN_SIZE. cbn.
    split; [lia|]. apply due_half; cbn; lia.
  - intros k v. split; [intros H; destruct (holds_init _ _ _ H)|].
    intros H. now apply elem_of_nil in H.
  - reflexivity.
  - exact Hnd.
  - exists self. split; [exact E|]. split; [|exact Hl].
    intros k v Hin. apply Inv_get; [apply HR|]. now apply Hh.
Qed.
End Growth.

Lemma due_floor_half u :
  6 <= size u -> 0 <= 2 * _len u <= size u -> ResizableHashTable.due_floor u = false.
Proof.
  intros Hs Hl. unfold ResizableHashTable.due_floor, __len__. rewrite Z.geb_leb.
  destruct (Z.leb_spec (size u * 2 / 3) (_len u)) as [H|H]; [|reflexivity].
  exfalso. revert H. Z.to_euclidean_division_equations. lia.
Qed.

Lemma due_floor_room u :
  0 < size u -> ResizableHashTable.due_floor u = false -> _len u < size u.
Proof.
  unfold ResizableHashTable.due_floor, __len__. rewrite Z.geb_leb. intros Hs H.
  destruct (Z.leb_spec (size u * 2 / 3) (_len u)) as [H'|H']; [discriminate|].
  revert H'. Z.to_euclidean_division_equations. lia.
Qed.

Lemma due_true_division_spec u :
  ResizableHashTable.due_true_division u = true <-> size u * 2 <= _len u * 3.
Proof.
  unfold ResizableHashTable.due_true_division, __len__. rewrite Qle_bool_iff.
  unfold Qle, Qdiv, Qmult, Qinv, inject_Z. cbn. lia.
Qed.

Lemma due_true_division_half u :
  6 <= size u -> 0 <= 2 * _len u <= size u ->
  ResizableHashTable.due_true_division u = false.
Proof.
  intros Hs Hl. destruct (ResizableHashTable.due_true_division u) eqn:E; [|reflexivity].
  apply due_true_division_spec in E. lia.
Qed.

Lemma due_true_division_room u :
  0 < size u -> ResizableHashTable.due_true_division u = false -> _len u < size u.
Proof.
  intros Hs E. destruct (Z_lt_le_dec (_len u) (size u)) as [H|H]; [assumption|].
  assert (E' : ResizableHashTable.due_true_division u = true)
    by (apply due_true_division_spec; lia).
  congruence.
Qed.

(** * The claims *)

(** ** The linear-probing table *)

(** C1 (the code falls short of it).  Key uniqueness fails on the code:
    [put] writes into the first Deleted cell of the walk without looking
    further for the key.  On a table of capacity 11, [put(0, a)],
    [put(11, b)], [del_(0)], [put(11, c)] leaves key 11 in cells 0 and 1
    with [len] at 2, and after one more [del_(11)] the key is still found,
    with the value [b] that the last [put] was to replace. *)
Theorem put_past_tombstone_duplicates_key :
  exists t1 t2 t3 t4 t5,
    put (__init__ 11) 0 (PyStr "a") = Ok t1 /\
    put t1 11 (PyStr "b") = Ok t2 /\
    del_ t2 0 = Ok (PyNone, t3) /\
    put t3 11 (PyStr "c") = Ok t4 /\
    slot_at t4 0 = Key 11 /\ slot_at t4 1 = Key 11 /\ __len__ t4 = 2 /\
    del_ t4 11 = Ok (PyNone, t5) /\
    get t5 11 = Ok (PyStr "b").
Proof.
  do 5 eexists. repeat split; vm_compute; reflexivity.
Qed.

(** C2, as the specification words it, fails: [del_] hands back [None]
    for a key that is in the table, and [None] as well for one that is
    not; no boolean is returned. *)
Lemma del_returns_no_boolean :
  exists self,
    put (__init__ 11) 0 (PyStr "a") = Ok self /\
    slot_at self 0 = Key 0 /\ get self 0 = Ok (PyStr "a") /\
    (exists self', del_ self 0 = Ok (PyNone, self')) /\
    (forall self', del_ self 0 <> Ok (PyBool true, self')) /\
    (exists self', del_ self 5 = Ok (PyNone, self')) /\
    (forall self', del_ self 5 <> Ok (PyBool false, self')).
Proof.
  eexists. split; [vm_compute; reflexivity|].
  repeat split; try (vm_compute; reflexivity); try (eexists; vm_compute; reflexivity);
    intros self'; vm_compute; discriminate.
Qed.

(** C2 (amended).  [del_] returns [None] for every table and key.  What
    tells the two cases apart is the table: when the probe finds the key
    at [p], that cell of [_keys] and [_values] becomes the Deleted
    sentinel and [_len] drops by one; when it does not, the table is left
    as it was. *)
Theorem del_returns_None self key :
  wf self ->
  exists self', del_ self key = Ok (PyNone, self') /\
    ((exists p, finds self key p /\ self' = tombstoned self p /\
        slot_at self' p = Deleted /\ __len__ self' = __len__ self - 1)
     \/ ((forall p, ~ finds self key p) /\ self' = self)).
Proof.
  intros Hwf.
  destruct (finds_decided self Hwf key) as [(p & Hp)|(Hn & _ & E)].
  - exists (tombstoned self p). split; [now apply del_finds|].
    pose proof (first_stop_range self Hwf _ _ _ (proj1 Hp)) as Hr.
    left. exists p. split; [assumption|]. split; [reflexivity|].
    split; [now apply slot_at_tombstoned_eq|reflexivity].
  - exists self. split; [assumption|]. right. now split.
Qed.

Lemma del_returns_None_witness :
  exists self', del_ (__init__ 3) 7 = Ok (PyNone, self').
Proof.
  destruct (del_returns_None (__init__ 3) 7) as (self' & E & _).
  - apply wf_init. reflexivity.
  - exists self'. exact E.
Defined.

(** C4 (amended).  On a well-formed table (positive capacity, both lists
    of that length) the loops of [put], [get] and [del_] examine at most
    [size] cells: run with [size] units of fuel, one per cell examined,
    [put] returns or raises the table-full error, [get] returns and
    [del_] returns, and more fuel gives the same outcome.  (Nothing of the
    kind is stated for the loop of the [DoubleHash] strategy.) *)
Theorem linear_probing_terminates self key value fuel :
  wf self -> (Z.to_nat (size self) <= fuel)%nat ->
  (put_fuel fuel self key value = put self key value /\
   ((exists self', put self key value = Ok self') \/
    put self key value = Raise (ValueError full_msg))) /\
  (get_fuel fuel self key = get self key /\ exists v, get self key = Ok v) /\
  (del_fuel fuel self key = del_ self key /\
   exists self', del_ self key = Ok (PyNone, self')).
Proof.
  intros Hwf Hfuel.
  pose proof (home_range self Hwf key) as Hh.
  split; [|split]; (split; [unfold put, get, del_|]).
  - rewrite !(put_fuel_probe self Hwf).
    now rewrite (probe_fuel_enough self _ _ fuel Hwf Hh Hfuel).
  - destruct (put_cases self Hwf key value) as [(p & _ & _ & E)|[(p & _ & _ & E)|[_ E]]];
      eauto.
  - rewrite !(get_fuel_probe self Hwf).
    now rewrite (probe_fuel_enough self _ _ fuel Hwf Hh Hfuel).
  - destruct (finds_decided self Hwf key) as [(p & Hp)|(_ & E & _)]; [|eauto].
    rewrite (get_finds self Hwf key p Hp). eauto.
  - rewrite !(del_fuel_probe self Hwf).
    now rewrite (probe_fuel_enough self _ _ fuel Hwf Hh Hfuel).
  - destruct (finds_decided self Hwf key) as [(p & Hp)|(_ & _ & E)]; [|eauto].
    rewrite (del_finds self Hwf key p Hp). eauto.
Qed.

Lemma linear_probing_terminates_witness :
  put_fuel 7 (__init__ 3) 4 (PyInt 1) = put (__init__ 3) 4 (PyInt 1).
Proof.
  apply (linear_probing_terminates (__init__ 3) 4 (PyInt 1) 7).
  - apply wf_init. reflexivity.
  - vm_compute. lia.
Defined.

(** C6.  Round trip: when [put(k, v)] succeeds on a well-formed table,
    [get(k)] on the table it leaves returns [v]. *)
Theorem put_get_roundtrip self key value self' :
  wf self -> put self key value = Ok self' -> get self' key = Ok value.
Proof.
  intros Hwf Hput.
  destruct (put_finds self Hwf key value self' Hput) as (Hwf' & _ & p & Hf & <-).
  now apply get_finds.
Qed.

Lemma put_get_roundtrip_witness :
  get (written (__init__ 11) 4 15 (PyStr "a")) 15 = Ok (PyStr "a").
Proof.
  apply (put_get_roundtrip (__init__ 11) 15 (PyStr "a")).
  - apply wf_init. reflexivity.
  - vm_compute. reflexivity.
Defined.

(** C7.  Tombstones keep probe chains whole: for distinct keys [k1] and
    [k2], after [put(k1, v1)], [put(k2, v2)] and [del_(k1)] on a
    well-formed table, [get(k2)] still returns [v2], and the cell that
    held [k1] now holds the Deleted sentinel, which the search walks past,
    not Empty.  This holds wherever [k1] sits, so in particular when the
    walk for [k2] passes through its cell. *)
Theorem tombstone_keeps_chain self k1 v1 k2 v2 t1 t2 r t3 :
  wf self -> k1 <> k2 ->
  put self k1 v1 = Ok t1 -> put t1 k2 v2 = Ok t2 -> del_ t2 k1 = Ok (r, t3) ->
  get t3 k2 = Ok v2 /\
  exists q, 0 <= q < size self /\ slot_at t2 q = Key k1 /\ slot_at t3 q = Deleted /\
    stop_get k2 (slot_at t3 q) = false.
Proof.
  intros Hwf Hne H1 H2 H3.
  destruct (put_finds self Hwf k1 v1 t1 H1) as (Hwf1 & Hs1 & p1 & Hf1 & _).
  destruct (put_finds t1 Hwf1 k2 v2 t2 H2) as (Hwf2 & Hs2 & p2 & Hf2 & Hv2).
  destruct (put_keeps_other t1 k2 v2 t2 k1 p1 Hwf1 (not_eq_sym Hne) H2 Hf1) as [Hf1' _].
  destruct (del_keeps_other t2 k1 r t3 k2 p2 Hwf2 Hne H3 Hf2) as [Hf2' Hv2'].
  pose proof (first_stop_range t2 Hwf2 _ _ _ (proj1 Hf1')) as Hr1.
  rewrite (del_finds t2 Hwf2 k1 p1 Hf1') in H3. injection H3 as <- <-.
  split.
  - rewrite (get_finds _ (wf_tombstoned t2 Hwf2 p1) k2 p2 Hf2'). congruence.
  - exists p1. rewrite slot_at_tombstoned_eq by assumption.
    split; [lia|]. split; [apply Hf1'|]. split; reflexivity.
Qed.

Lemma tombstone_keeps_chain_witness :
  exists t3, del_ (written (written (__init__ 11) 0 0 (PyStr "a")) 1 11 (PyStr "b")) 0
             = Ok (PyNone, t3) /\ get t3 11 = Ok (PyStr "b").
Proof.
  eexists. split; [vm_compute; reflexivity|].
  apply (tombstone_keeps_chain (__init__ 11) 0 (PyStr "a") 11 (PyStr "b")
           (written (__init__ 11) 0 0 (PyStr "a"))
           (written (written (__init__ 11) 0 0 (PyStr "a")) 1 11 (PyStr "b")) PyNone).
  - apply wf_init. reflexivity.
  - lia.
  - vm_compute. reflexivity.
  - vm_compute. reflexivity.
  - vm_compute. reflexivity.
Defined.

(** C8.  [put] raises the table-full error exactly when every one of the
    [size] cells, which the walk from the home slot visits once each
    before it is back at the home slot, holds some other key: none Empty,
    none Deleted, none with the key itself.  On a table of capacity 3 the
    puts of keys 0, 1 and 2 succeed and the put of key 3 that follows
    fails with that error. *)
Theorem put_table_full self key value :
  wf self ->
  (put self key value = Raise (ValueError full_msg) <->
   forall p, 0 <= p < size self -> exists k, slot_at self p = Key k /\ k <> key) /\
  (forall j1 j2, 0 <= j1 < size self -> 0 <= j2 < size self ->
     pos self (key mod size self) j1 = pos self (key mod size self) j2 -> j1 = j2) /\
  pos self (key mod size self) (size self) = key mod size self /\
  (forall v0 v1 v2 v3, exists t1 t2 t3,
     put (__init__ 3) 0 v0 = Ok t1 /\ put t1 1 v1 = Ok t2 /\ put t2 2 v2 = Ok t3 /\
     put t3 3 v3 = Raise (ValueError full_msg)).
Proof.
  intros Hwf. split; [|split; [|split]].
  - split.
    + intros Hfull p Hp.
      destruct (put_cases self Hwf key value) as [(q & _ & _ & E)|[(q & _ & _ & E)|[Hn _]]];
        try congruence.
      destruct (pos_cover self Hwf (key mod size self) p Hp) as (j & Hj & ->).
      specialize (Hn j Hj). unfold stop_put in Hn.
      destruct (slot_at self _) as [| |k]; cbn in Hn; try discriminate.
      exists k. split; [reflexivity|]. now apply Z.eqb_neq.
    + intros Hall.
      destruct (put_cases self Hwf key value) as [(q & Hq & Es & _)|[(q & Hq & Es & _)|[_ E]]];
        [| |exact E];
        destruct (Hall q (first_stop_range self Hwf _ _ _ Hq)) as (k & Ek & Hk);
        first [congruence|destruct Es; congruence].
  - intros j1 j2. apply (pos_inj self Hwf).
  - apply (pos_full self Hwf), (home_range self Hwf).
  - intros v0 v1 v2 v3. do 3 eexists. repeat split; reflexivity.
Qed.

Lemma put_table_full_witness :
  put (mk 3 3 [Key 0; Key 1; Key 2] [PyInt 0; PyInt 1; PyInt 2]) 3 (PyInt 3)
  = Raise (ValueError full_msg).
Proof.
  apply (put_table_full (mk 3 3 [Key 0; Key 1; Key 2] [PyInt 0; PyInt 1; PyInt 2]) 3 (PyInt 3)).
  - repeat split; reflexivity.
  - intros p Hp. assert (Hc : p = 0 \/ p = 1 \/ p = 2) by (cbn in Hp; lia).
    destruct Hc as [-> | [-> | ->]]; eexists; (split; [reflexivity|lia]).
Defined.

(** C10.  A stored [None] cannot be told from absence: after a successful
    [put(k, None)], [get(k)] returns [None], which is also what [get]
    returns on a fresh table, and [k in table] is [False], although a cell
    holds [k] and, when [k] was not there before, [len] has grown by one. *)
Theorem stored_None_looks_absent self key self' :
  wf self -> put self key PyNone = Ok self' ->
  get self' key = Ok PyNone /\
  get (__init__ (size self)) key = Ok PyNone /\
  __contains__ self' key = Ok false /\
  (exists p, 0 <= p < size self' /\ slot_at self' p = Key key) /\
  ((forall p, 0 <= p < size self -> slot_at self p <> Key key) ->
   __len__ self' = __len__ self + 1).
Proof.
  intros Hwf Hput.
  assert (Hget : get self' key = Ok PyNone).
  { destruct (put_finds self Hwf key PyNone self' Hput) as (Hwf' & _ & p & Hf & <-).
    now apply get_finds. }
  split; [exact Hget|]. split; [apply get_init, Hwf|].
  split; [unfold __contains__; now rewrite Hget|]. split.
  - destruct (put_finds self Hwf key PyNone self' Hput) as (Hwf' & _ & p & [Hp Es] & _).
    exists p. split; [exact (first_stop_range self' Hwf' _ _ _ Hp)|exact Es].
  - intros Hfresh.
    destruct (put_cases self Hwf key PyNone) as [(p & Hp & Es & E)|[(p & Hp & Es & E)|[_ E]]];
      rewrite E in Hput; try discriminate; injection Hput as <-.
    + destruct (Hfresh p (first_stop_range self Hwf _ _ _ Hp) Es).
    + reflexivity.
Qed.

Lemma stored_None_looks_absent_witness :
  __contains__ (written (__init__ 11) 7 7 PyNone) 7 = Ok false.
Proof.
  apply (stored_None_looks_absent (__init__ 11) 7 (written (__init__ 11) 7 7 PyNone)).
  - apply wf_init. reflexivity.
  - vm_compute. reflexivity.
Defined.

(** C9.  Growth keeps every entry: for every list of entries with
    pairwise distinct keys, put one after the other into a fresh
    [ResizableHashTable] (with [put] and [_resize] allowed to nest two
    deep or more), every [put] returns, and afterwards [get] returns the
    value of each of the keys and [len] is the number of entries.  The
    test of [put] is the one of chatgpt6.py. *)
Theorem growth_keeps_entries (entries : list (Z * pyobj)) (depth : nat) :
  NoDup entries.*1 -> (2 <= depth)%nat ->
  exists self,
    ResizableHashTable.puts ResizableHashTable.due_floor depth
      ResizableHashTable.__init__ entries = Ok self /\
    (forall k v, (k, v) ∈ entries -> get self k = Ok v) /\
    __len__ self = Z.of_nat (length entries).
Proof.
  apply puts_from_init; [apply due_floor_half|apply due_floor_room].
Qed.

Lemma growth_keeps_entries_witness :
  exists self,
    ResizableHashTable.puts ResizableHashTable.due_floor 2
      ResizableHashTable.__init__ twelve_entries = Ok self /\
    __len__ self = 12.
Proof.
  destruct (growth_keeps_entries twelve_entries 2) as (self & E & _ & Hl).
  - apply (bool_decide_unpack _). vm_compute. reflexivity.
  - lia.
  - exists self. split; [exact E|exact Hl].
Defined.

Lemma twelve_entries_resize_twice :
  exists self,
    ResizableHashTable.puts ResizableHashTable.due_floor 2
      ResizableHashTable.__init__ twelve_entries = Ok self /\
    size self = 32.
Proof. eexists. split; vm_compute; reflexivity. Qed.

(** The same with the test of gemini6.py and Claude6.py. *)
Theorem growth_keeps_entries_true_division (entries : list (Z * pyobj)) (depth : nat) :
  NoDup entries.*1 -> (2 <= depth)%nat ->
  exists self,
    ResizableHashTable.puts ResizableHashTable.due_true_division depth
      ResizableHashTable.__init__ entries = Ok self /\
    (forall k v, (k, v) ∈ entries -> get self k = Ok v) /\
    __len__ self = Z.of_nat (length entries).
Proof.
  apply puts_from_init; [apply due_true_division_half|apply due_true_division_room].
Qed.

(** ** Double hashing *)

Section DoubleHashFacts.
Variable check_prime : Z -> bool.
Variable next_prime : Z -> Z.
Variable self : dh_table.

(** Copilot1.py and Claude1.py compute the same probe position. *)
Lemma probe_position_same key data i :
  Claude1._calculate_probe_position check_prime next_prime self key data i =
  Copilot1.__hash_double_function check_prime next_prime self key data i.
Proof.
  unfold Claude1._calculate_probe_position, Claude1._calculate_second_hash,
    Claude1._get_secondary_prime, Copilot1.__hash_double_function,
    Copilot1.__hash_function_2.
  destruct (py_mod key (size_table self)) as [r| |]; cbn; try reflexivity.
  destruct (check_prime r); reflexivity.
Qed.

Lemma probe_position_formula key data i :
  let r := key mod size_table self in
  let p := if check_prime r then r else next_prime r in
  size_table self <> 0 -> p <> 0 ->
  Copilot1.__hash_double_function check_prime next_prime self key data i =
  Ok ((i * (p - data mod p)) mod size_table self).
Proof.
  intros r p Hs Hp.
  unfold Copilot1.__hash_double_function, Copilot1.__hash_function_2, py_mod.
  destruct (Z.eqb_spec (size_table self) 0) as [|_]; [contradiction|]. cbn [bind].
  fold r. replace (if negb (check_prime r) then next_prime r else r) with p
    by (subst p; now destruct (check_prime r)).
  destruct (Z.eqb_spec p 0) as [|_]; [contradiction|]. cbn [bind].
  destruct (Z.eqb_spec (size_table self) 0) as [|_]; [contradiction|reflexivity].
Qed.

(** The gate of Claude1.py: on a cell taken by another entry the loop
    gives up when the load has reached the ceiling and otherwise probes
    on. *)
Lemma Claude1_gate fuel key data iteration position v :
  getitem (values self) position = Ok v -> occupied_by_other v key = true ->
  Claude1.collision_loop check_prime next_prime self (S fuel) key data iteration position =
  if Qle_bool (lim_charge self) (balanced_factor self) then Ok None
  else
    position' <- Claude1._calculate_probe_position check_prime next_prime self
                   key data iteration ;;
    Claude1.collision_loop check_prime next_prime self fuel key data
      (iteration + 1) position'.
Proof. intros Hv Ho. cbn [Claude1.collision_loop]. rewrite Hv. cbn [bind]. now rewrite Ho. Qed.

(** The gate of Copilot1.py and gemini1.py is the other way round: the
    loop probes on when the load has reached the ceiling and gives up
    when it has not. *)
Lemma Copilot1_gate fuel key data i new_key v :
  getitem (values self) new_key = Ok v -> occupied_by_other v key = true ->
  Copilot1.collision_loop check_prime next_prime self (S fuel) key data i new_key =
  if Qle_bool (lim_charge self) (balanced_factor self) then
    new_key' <- Copilot1.__hash_double_function check_prime next_prime self
                  key data i ;;
    Copilot1.collision_loop check_prime next_prime self fuel key data (i + 1) new_key'
  else Ok None.
Proof. intros Hv Ho. cbn [Copilot1.collision_loop]. rewrite Hv. cbn [bind]. now rewrite Ho. Qed.
End DoubleHashFacts.

(** C3 (the code falls short of it).  In Copilot1.py (and gemini1.py) the
    test is inverted.  With one cell of eleven taken, load 1/11 under the
    ceiling 3/4, the strategy gives up at once on a taken home cell; with
    nine of eleven taken, load over the ceiling, it probes on and returns
    a position.  Claude1.py does what the claim says on both tables. *)
Theorem Copilot1_gate_inverted :
  (Qle_bool (lim_charge dh_sparse) (balanced_factor dh_sparse) = false /\
   Copilot1._collision_resolution check_prime_model next_prime_model dh_sparse 2 0 22
     = Ok None /\
   Claude1._collision_resolution check_prime_model next_prime_model dh_sparse 2 0 22
     = Ok (Some 2)) /\
  (Qle_bool (lim_charge dh_crowded) (balanced_factor dh_crowded) = true /\
   Copilot1._collision_resolution check_prime_model next_prime_model dh_crowded 2 0 22
     = Ok (Some 2) /\
   Claude1._collision_resolution check_prime_model next_prime_model dh_crowded 2 0 22
     = Ok None).
Proof. repeat split; vm_compute; reflexivity. Qed.

(** C4, as the specification words it, fails for the [DoubleHash] loop:
    with capacity 4 and data 4 the step is 2, the walk alternates between
    cells 2 and 0, both taken by other entries, and the loop does not
    return whatever the fuel; in Copilot1.py with the load at the ceiling,
    in Claude1.py with the load below it. *)
Lemma double_hash_probe_never_returns :
  (forall fuel,
     Copilot1._collision_resolution check_prime_model next_prime_model
       dh_at_ceiling fuel 0 4 = OutOfFuel) /\
  (forall fuel,
     Claude1._collision_resolution check_prime_model next_prime_model
       dh_below_ceiling fuel 0 4 = OutOfFuel).
Proof.
  assert (Hstep : forall i, (i * 2) mod 4 = 0 \/ (i * 2) mod 4 = 2).
  { intros i. Z.to_euclidean_division_equations. lia. }
  split.
  - assert (H : forall fuel i new_key, new_key = 0 \/ new_key = 2 ->
      Copilot1.collision_loop check_prime_model next_prime_model dh_at_ceiling
        fuel 0 4 i new_key = OutOfFuel).
    { induction fuel as [|fuel IH]; intros i new_key Hk; [reflexivity|].
      assert (E : Copilot1.__hash_double_function check_prime_model next_prime_model
                    dh_at_ceiling 0 4 i = Ok ((i * 2) mod 4)) by reflexivity.
      destruct Hk as [-> | ->].
      - rewrite (Copilot1_gate _ _ _ fuel 0 4 i 0 (Some 8)) by reflexivity.
        change (Qle_bool _ _) with true. cbv iota. rewrite E. cbn [bind]. apply IH, Hstep.
      - rewrite (Copilot1_gate _ _ _ fuel 0 4 i 2 (Some 6)) by reflexivity.
        change (Qle_bool _ _) with true. cbv iota. rewrite E. cbn [bind]. apply IH, Hstep. }
    intros fuel. apply H. now left.
  - assert (H : forall fuel i position, position = 0 \/ position = 2 ->
      Claude1.collision_loop check_prime_model next_prime_model dh_below_ceiling
        fuel 0 4 i position = OutOfFuel).
    { induction fuel as [|fuel IH]; intros i position Hk; [reflexivity|].
      assert (E : Claude1._calculate_probe_position check_prime_model next_prime_model
                    dh_below_ceiling 0 4 i = Ok ((i * 2) mod 4)) by reflexivity.
      destruct Hk as [-> | ->].
      - rewrite (Claude1_gate _ _ _ fuel 0 4 i 0 (Some 8)) by reflexivity.
        change (Qle_bool _ _) with false. cbv iota. rewrite E. cbn [bind]. apply IH, Hstep.
      - rewrite (Claude1_gate _ _ _ fuel 0 4 i 2 (Some 6)) by reflexivity.
        change (Qle_bool _ _) with false. cbv iota. rewrite E. cbn [bind]. apply IH, Hstep. }
    intros fuel. apply H. now left.
Qed.

(** The probe function has two arguments: the prime is taken from the
    first and the inner modulo from the second.  Called directly with a
    key that is not the home slot of the data (capacity 11, key 3, data
    5) it returns 1, where one value feeding both would give 5 or 3.  An
    insert never makes such a call: it passes the home slot of the data
    as the key. *)
Lemma probe_position_two_inputs :
  Copilot1.__hash_double_function check_prime_model next_prime_model
    (dh_make 11 [] 1) 3 5 1 = Ok 1 /\
  Claude1._calculate_probe_position check_prime_model next_prime_model
    (dh_make 11 [] 1) 3 5 1 = Ok 1 /\
  spec_probe 11 5 1 = 5 /\ spec_probe 11 3 1 = 3.
Proof. repeat split; vm_compute; reflexivity. Qed.

(** The probe function on any two arguments.  With [check_prime] and
    [next_prime] doing at the remainder [r = key mod size] what their
    names say, the probe position at attempt [i] is [(i * h2) mod size]
    with [h2 = p - (data mod p)], where [p] is the smallest prime at least
    [r].  Copilot1.py and Claude1.py agree on it. *)
Theorem probe_position_key_and_data check_prime next_prime self key data i :
  let r := key mod size_table self in
  size_table self <> 0 ->
  (check_prime r = true <-> Z.prime r) ->
  (check_prime r = false ->
   Z.prime (next_prime r) /\ r < next_prime r /\
   forall q, Z.prime q -> r < q -> next_prime r <= q) ->
  exists p, least_prime_ge r p /\
    Copilot1.__hash_double_function check_prime next_prime self key data i =
      Ok ((i * (p - data mod p)) mod size_table self) /\
    Claude1._calculate_probe_position check_prime next_prime self key data i =
      Ok ((i * (p - data mod p)) mod size_table self).
Proof.
  intros r Hs Hc Hn.
  pose proof (probe_position_formula check_prime next_prime self key data i Hs) as Hf.
  rewrite probe_position_same. fold r in Hf.
  destruct (check_prime r) eqn:Ec.
  - assert (Hp : Z.prime r) by now apply Hc.
    exists r. split; [|split; apply Hf; destruct Hp; lia].
    split; [assumption|]. split; [lia|]. intros q _ Hq. exact Hq.
  - destruct (Hn eq_refl) as (Hp & Hlt & Hleast).
    exists (next_prime r). split; [|split; apply Hf; destruct Hp; lia].
    split; [assumption|]. split; [lia|]. intros q Hq Hrq.
    apply Hleast; [assumption|].
    destruct (Z.eq_dec r q) as [->|]; [|lia].
    apply Hc in Hq. congruence.
Qed.

Lemma probe_position_key_and_data_witness :
  exists p, least_prime_ge 4 p /\
    Copilot1.__hash_double_function check_prime_model next_prime_model
      (dh_make 11 [] 1) 4 7 2 = Ok ((2 * (p - 7 mod p)) mod 11).
Proof.
  destruct (probe_position_key_and_data check_prime_model next_prime_model
              (dh_make 11 [] 1) 4 7 2) as (p & Hp & E & _).
  - cbn. lia.
  - change (4 mod size_table (dh_make 11 [] 1)) with 4.
    split; [discriminate|]. intros [_ H]. exfalso.
    apply (H 2); [lia|]. exists 2. reflexivity.
  - intros _. change (4 mod size_table (dh_make 11 [] 1)) with 4.
    change (next_prime_model 4) with 5. split; [|split; [reflexivity|]].
    + split; [lia|]. intros n Hn [c Hc].
      assert (Hcases : n = 2 \/ n = 3 \/ n = 4) by lia.
      destruct Hcases as [-> | [-> | ->]]; lia.
    + intros q _ Hq. lia.
  - exists p. split; [exact Hp|exact E].
Defined.

Lemma first_prime_from_ge fuel : forall c, c <= first_prime_from fuel c.
Proof.
  induction fuel as [|fuel IH]; intros c; cbn; [lia|].
  destruct (check_prime_model c); [lia|]. specialize (IH (c + 1)). lia.
Qed.

(** When the key and the data leave the same remainder, as they do when
    the key is the home slot of the data, the position is the one the
    specification words with a single value. *)
Lemma probe_position_same_residue size vals lim key data i :
  0 < size -> key mod size = data mod size ->
  Copilot1.__hash_double_function check_prime_model next_prime_model
    (dh_make size vals lim) key data i = Ok (spec_probe size data i).
Proof.
  intros Hs Hr.
  rewrite probe_position_formula; cbn [size_table dh_make]; try lia.
  - unfold spec_probe, spec_h2. now rewrite Hr.
  - pose proof (Z.mod_pos_bound key size Hs) as Hb.
    destruct (check_prime_model (key mod size)) eqn:E.
    + unfold check_prime_model in E. apply andb_prop in E as [E _].
      apply Z.leb_le in E. lia.
    + unfold next_prime_model.
      pose proof (first_prime_from_ge (Z.to_nat (key mod size) + 2) (key mod size + 1)).
      lia.
Qed.

(** C5.  For every insert handled by the [DoubleHash] strategy the value
    [v] that is inserted feeds both the choice of the prime and the inner
    modulo: the insert passes the home slot of [v], [hash_function(v)],
    as the key, so the probe position at attempt [i] is
    [(i * h2(v)) mod size] with [h2(v) = p - (v mod p)], where [p] is the
    smallest prime at least [r = v mod size]: [r] itself when it is prime,
    otherwise the next prime above it.  [check_prime] and [next_prime]
    are taken to do at [r] what their names say, and [hash_function] to
    give the home slot [v mod size]; Copilot1.py and Claude1.py agree on
    the position. *)
Theorem insert_probe_position (check_prime : Z -> bool) (next_prime : Z -> Z)
    self v i :
  let r := v mod size_table self in
  0 < size_table self ->
  hash_function self v = v mod size_table self ->
  (check_prime r = true <-> Z.prime r) ->
  (check_prime r = false ->
   Z.prime (next_prime r) /\ r < next_prime r /\
   forall q, Z.prime q -> r < q -> next_prime r <= q) ->
  exists p, least_prime_ge r p /\
    (Z.prime r -> p = r) /\ (~ Z.prime r -> r < p) /\
    Copilot1.__hash_double_function check_prime next_prime self
      (hash_function self v) v i = Ok ((i * (p - v mod p)) mod size_table self) /\
    Claude1._calculate_probe_position check_prime next_prime self
      (hash_function self v) v i = Ok ((i * (p - v mod p)) mod size_table self).
Proof.
  intros r Hs Hh Hc Hn. rewrite Hh.
  assert (Er : (v mod size_table self) mod size_table self = r)
    by (apply Z.mod_mod; lia).
  pose proof (probe_position_formula check_prime next_prime self
                (v mod size_table self) v i) as Hf.
  cbv zeta in Hf. rewrite Er in Hf. rewrite probe_position_same.
  destruct (check_prime r) eqn:Ec.
  - assert (Hp : Z.prime r) by now apply Hc.
    exists r. split; [|split; [reflexivity|split; [contradiction|]]].
    + split; [assumption|]. split; [lia|]. intros q _ Hq. exact Hq.
    + split; apply Hf; destruct Hp; lia.
  - destruct (Hn eq_refl) as (Hp & Hlt & Hleast).
    assert (Hnp : ~ Z.prime r) by (intros Hr; apply Hc in Hr; congruence).
    exists (next_prime r). split; [|split; [contradiction|split; [lia|]]].
    + split; [assumption|]. split; [lia|]. intros q Hq Hrq.
      apply Hleast; [assumption|].
      destruct (Z.eq_dec r q) as [->|]; [contradiction|lia].
    + split; apply Hf; destruct Hp; lia.
Qed.

Lemma insert_probe_position_witness :
  exists p, least_prime_ge 4 p /\
    Copilot1.__hash_double_function check_prime_model next_prime_model
      (dh_make 11 [] 1) (hash_function (dh_make 11 [] 1) 26) 26 2
    = Ok ((2 * (p - 26 mod p)) mod 11).
Proof.
  destruct (insert_probe_position check_prime_model next_prime_model
              (dh_make 11 [] 1) 26 2) as (p & Hp & _ & _ & E & _).
  - cbn. lia.
  - reflexivity.
  - change (26 mod size_table (dh_make 11 [] 1)) with 4.
    split; [discriminate|]. intros [_ H]. exfalso.
    apply (H 2); [lia|]. exists 2. reflexivity.
  - intros _. change (26 mod size_table (dh_make 11 [] 1)) with 4.
    change (next_prime_model 4) with 5. split; [|split; [reflexivity|]].
    + split; [lia|]. intros n Hn [c Hc].
      assert (Hcases : n = 2 \/ n = 3 \/ n = 4) by lia.
      destruct Hcases as [-> | [-> | ->]]; lia.
    + intros q _ Hq. lia.
  - exists p. split; [exact Hp|exact E].
Defined.

(** The same on the models of the absent helpers, in closed form. *)
Lemma insert_probe_position_closed size vals lim v i :
  0 < size ->
  Copilot1.__hash_double_function check_prime_model next_prime_model
    (dh_make size vals lim) (hash_function (dh_make size vals lim) v) v i
  = Ok (spec_probe size v i).
Proof.
  intros Hs. apply probe_position_same_residue; [assumption|].
  cbn. unfold hash_function_model. apply Z.mod_mod. lia.
Qed.

(** * Further properties *)

(** ** What every run of [put] and [del_] keeps *)

Lemma count_keys_insert_any l x :
  forall n, (n < length l)%nat ->
    count_keys (<[n := x]> l) =
    count_keys l - (if is_key (default Empty (l !! n)) then 1 else 0)
                 + (if is_key x then 1 else 0).
Proof.
  induction l as [|slot l IH]; intros n Hn; [cbn in Hn; lia|].
  destruct n as [|n]; cbn.
  - rewrite !count_keys_cons. destruct (is_key slot), (is_key x); lia.
  - rewrite !count_keys_cons, IH by (cbn in Hn; lia).
    destruct (is_key slot), (is_key x), (is_key (default Empty (l !! n))); lia.
Qed.

Lemma LInv_put self key value self' :
  LInv self -> put self key value = Ok self' ->
  LInv self' /\ size self' = size self /\ _len self <= _len self' <= _len self + 1.
Proof.
  intros [Hwf Hlen] Hput.
  destruct (put_cases self Hwf key value) as [(p & Hp & Es & E)|[(p & Hp & Es & E)|[_ E]]];
    rewrite E in Hput; try discriminate; injection Hput as <-;
    pose proof (first_stop_range self Hwf _ _ _ Hp) as Hr.
  - split; [|split; [reflexivity|cbn; lia]].
    split; [now apply wf_overwritten|exact Hlen].
  - split; [|split; [reflexivity|cbn; lia]].
    split; [now apply wf_written|]. cbn.
    rewrite count_keys_insert; [lia| |].
    + destruct Hwf as (_ & Hk & _). lia.
    + fold (slot_at self p). now destruct Es as [-> | ->].
Qed.

Lemma LInv_del self key r self' :
  LInv self -> del_ self key = Ok (r, self') ->
  LInv self' /\ size self' = size self /\ _len self - 1 <= _len self' <= _len self.
Proof.
  intros [Hwf Hlen] Hdel.
  destruct (finds_decided self Hwf key) as [(p & Hp)|(_ & _ & E)].
  - rewrite (del_finds self Hwf key p Hp) in Hdel. injection Hdel as <- <-.
    destruct Hp as [Hp Es].
    pose proof (first_stop_range self Hwf _ _ _ Hp) as Hr.
    split; [|split; [reflexivity|cbn; lia]].
    split; [now apply wf_tombstoned|]. cbn.
    rewrite count_keys_insert_any by (destruct Hwf as (_ & Hk & _); lia).
    fold (slot_at self p). rewrite Es. cbn. lia.
  - rewrite E in Hdel. injection Hdel as <- <-.
    split; [now split|]. split; [reflexivity|lia].
Qed.

Lemma chained_put self key value self' :
  wf self -> chained self -> put self key value = Ok self' -> chained self'.
Proof.
  intros Hwf Hc Hput.
  destruct (put_cases self Hwf key value) as [(p & Hp & Es & E)|[(p & Hp & Es & E)|[_ E]]];
    rewrite E in Hput; try discriminate; injection Hput as <-;
    pose proof (first_stop_range self Hwf _ _ _ Hp) as Hr.
  - exact Hc.
  - intros j k Hj Ek j' Hj'.
    change (size (written self p key value)) with (size self) in *.
    change (pos (written self p key value)) with (pos self) in *.
    pose proof (pos_range self Hwf (k mod size self) j') as Hr'.
    pose proof (pos_range self Hwf (k mod size self) j) as Hrj.
    destruct (Z.eq_dec (pos self (k mod size self) j') p) as [E'|E'].
    + rewrite E', slot_at_written_eq by assumption. discriminate.
    + rewrite slot_at_written_ne by (assumption || lia).
      destruct (Z.eq_dec (pos self (k mod size self) j) p) as [Ej|Ej].
      * rewrite Ej, slot_at_written_eq in Ek by assumption. injection Ek as ->.
        destruct Hp as (j0 & Hj0 & Ep & _ & Hb).
        assert (j = j0) as -> by (apply (pos_inj self Hwf (k mod size self)); [lia..|congruence]).
        specialize (Hb j' Hj'). intros Ee. rewrite Ee in Hb. discriminate.
      * rewrite slot_at_written_ne in Ek by (assumption || lia).
        exact (Hc j k Hj Ek j' Hj').
Qed.

Lemma chained_del self key r self' :
  wf self -> chained self -> del_ self key = Ok (r, self') -> chained self'.
Proof.
  intros Hwf Hc Hdel.
  destruct (finds_decided self Hwf key) as [(p & Hp)|(_ & _ & E)].
  - rewrite (del_finds self Hwf key p Hp) in Hdel. injection Hdel as <- <-.
    pose proof (first_stop_range self Hwf _ _ _ (proj1 Hp)) as Hr.
    intros j k Hj Ek j' Hj'.
    change (size (tombstoned self p)) with (size self) in *.
    change (pos (tombstoned self p)) with (pos self) in *.
    pose proof (pos_range self Hwf (k mod size self) j') as Hr'.
    pose proof (pos_range self Hwf (k mod size self) j) as Hrj.
    destruct (Z.eq_dec (pos self (k mod size self) j) p) as [Ej|Ej].
    + rewrite Ej, slot_at_tombstoned_eq in Ek by assumption. discriminate.
    + rewrite slot_at_tombstoned_ne in Ek by (assumption || lia).
      destruct (Z.eq_dec (pos self (k mod size self) j') p) as [E'|E'].
      * rewrite E', slot_at_tombstoned_eq by assumption. discriminate.
      * rewrite slot_at_tombstoned_ne by (assumption || lia).
        exact (Hc j k Hj Ek j' Hj').
  - rewrite E in Hdel. now injection Hdel as <- <-.
Qed.

Lemma CInv_init n : 0 < n -> CInv (__init__ n).
Proof.
  intros Hn. split; [split; [now apply wf_init|]|].
  - cbn. now rewrite count_keys_replicate.
  - intros j k _ Es. rewrite slot_at_init in Es. discriminate.
Qed.

Lemma CInv_apply self o self' :
  CInv self -> apply_op self o = Ok self' -> CInv self' /\ size self' = size self.
Proof.
  intros [HL Hc] Hop. destruct o as [key value|key]; cbn in Hop.
  - destruct (LInv_put self key value self' HL Hop) as (HL' & Hs & _).
    split; [split; [assumption|]|assumption].
    exact (chained_put self key value self' (proj1 HL) Hc Hop).
  - destruct (del_ self key) as [[r t']| |] eqn:E; try discriminate.
    cbn in Hop. injection Hop as ->.
    destruct (LInv_del self key r self' HL E) as (HL' & Hs & _).
    split; [split; [assumption|]|assumption].
    exact (chained_del self key r self' (proj1 HL) Hc E).
Qed.

Lemma CInv_run ops :
  forall self self', CInv self -> run ops self = Ok self' ->
    CInv self' /\ size self' = size self.
Proof.
  induction ops as [|o ops IH]; intros self self' HC Hrun; cbn in Hrun.
  - injection Hrun as <-. now split.
  - destruct (apply_op self o) as [t'| |] eqn:E; try discriminate. cbn in Hrun.
    destruct (CInv_apply self o t' HC E) as [HC' Hs].
    destruct (IH t' self' HC' Hrun) as [HC'' Hs']. split; [assumption|congruence].
Qed.

(** A key that sits in some cell of a chained table is found by the
    probe. *)
Lemma chained_finds self k p :
  wf self -> chained self -> 0 <= p < size self -> slot_at self p = Key k ->
  exists q, finds self k q.
Proof.
  intros Hwf Hc Hp Es.
  destruct (pos_cover self Hwf (k mod size self) p Hp) as (j & Hj & Ej).
  destruct (stop_decided self Hwf (stop_get k) (k mod size self))
    as [(q & Hq)|Hnone]; [apply home_range, Hwf| |].
  - exists q. split; [exact Hq|].
    destruct Hq as (j1 & Hj1 & Eq & Hs & Hb).
    destruct (slot_at self q) as [| |k'] eqn:E; cbn in Hs; try discriminate.
    + exfalso. assert (Hlt : j1 < j).
      { destruct (Z_lt_le_dec j1 j) as [|Hge]; [assumption|].
        destruct (Z.eq_dec j j1) as [->|]; [congruence|].
        specialize (Hb j ltac:(lia)). rewrite <- Ej, Es in Hb. cbn in Hb.
        rewrite Z.eqb_refl in Hb. discriminate. }
      rewrite Ej in Es. apply (Hc j k Hj Es j1); [lia|]. now rewrite <- Eq.
    + apply Z.eqb_eq in Hs as ->. reflexivity.
  - specialize (Hnone j Hj). rewrite <- Ej, Es in Hnone. cbn in Hnone.
    rewrite Z.eqb_refl in Hnone. discriminate.
Qed.

(** X1.  On every table reached from a fresh one by [put] and [del_]
    calls in any order, [len] is the number of occupied cells; the
    capacity is the one the table was made with and both lists have that
    length. *)
Theorem len_counts_occupied_cells n ops self :
  0 < n -> run ops (__init__ n) = Ok self ->
  wf self /\ size self = n /\
  __len__ self = count_keys (_keys self) /\ 0 <= __len__ self <= size self.
Proof.
  intros Hn Hrun.
  destruct (CInv_run ops _ _ (CInv_init n Hn) Hrun) as [[[Hwf Hl] _] Hs].
  split; [assumption|]. split; [exact Hs|]. split; [exact Hl|].
  unfold __len__. rewrite Hl. pose proof (count_keys_bounds (_keys self)).
  destruct Hwf as (_ & Hk & _). lia.
Qed.

Lemma len_counts_occupied_cells_witness :
  exists self,
    run [Put 0 (PyStr "a"); Put 11 (PyStr "b"); Del 0; Put 11 (PyStr "c")]
      (__init__ 11) = Ok self /\
    __len__ self = count_keys (_keys self).
Proof.
  eexists. split; [vm_compute; reflexivity|].
  eapply (len_counts_occupied_cells 11
            [Put 0 (PyStr "a"); Put 11 (PyStr "b"); Del 0; Put 11 (PyStr "c")]).
  - lia.
  - vm_compute. reflexivity.
Defined.

(** X2.  On every such table a key that sits in some cell is found:
    [get] returns the value stored beside a cell that holds the key.  No
    run of [put] and [del_] cuts a key off from its home slot. *)
Theorem present_key_is_found n ops self k p :
  0 < n -> run ops (__init__ n) = Ok self ->
  0 <= p < size self -> slot_at self p = Key k ->
  exists q, 0 <= q < size self /\ slot_at self q = Key k /\
    get self k = Ok (value_at self q).
Proof.
  intros Hn Hrun Hp Es.
  destruct (CInv_run ops _ _ (CInv_init n Hn) Hrun) as [[[Hwf _] Hc] _].
  destruct (chained_finds self k p Hwf Hc Hp Es) as (q & Hq).
  exists q. split; [exact (first_stop_range self Hwf _ _ _ (proj1 Hq))|].
  split; [apply Hq|]. now apply get_finds.
Qed.

Lemma present_key_is_found_witness :
  exists q, get (written (tombstoned (written (written (__init__ 11) 0 0 (PyStr "a"))
                                        1 11 (PyStr "b")) 0) 0 11 (PyStr "c")) 11
            = Ok (value_at (written (tombstoned (written (written (__init__ 11) 0 0 (PyStr "a"))
                                        1 11 (PyStr "b")) 0) 0 11 (PyStr "c")) q).
Proof.
  destruct (present_key_is_found 11
              [Put 0 (PyStr "a"); Put 11 (PyStr "b"); Del 0; Put 11 (PyStr "c")]
              (written (tombstoned (written (written (__init__ 11) 0 0 (PyStr "a"))
                                        1 11 (PyStr "b")) 0) 0 11 (PyStr "c"))
              11 1) as (q & _ & _ & E).
  - lia.
  - vm_compute. reflexivity.
  - cbn. lia.
  - vm_compute. reflexivity.
  - exists q. exact E.
Defined.

(** ** One key at a time *)

(** After a successful [put] the walk of a second [put] for the same key
    ends on the same cell. *)
Lemma put_stops_again self key value self' :
  wf self -> put self key value = Ok self' ->
  exists p, first_stop (stop_put key) self' (key mod size self') p /\
    slot_at self' p = Key key.
Proof.
  intros Hwf Hput.
  destruct (put_cases self Hwf key value) as [(p & Hp & Es & E)|[(p & Hp & Es & E)|[_ E]]];
    rewrite E in Hput; try discriminate; injection Hput as <-;
    pose proof (first_stop_range self Hwf _ _ _ Hp) as Hr; exists p.
  - split; [exact Hp|exact Es].
  - split; [|now apply slot_at_written_eq].
    revert Hp. apply first_stop_transfer; try assumption; try reflexivity.
    + rewrite slot_at_written_eq by assumption. cbn. now rewrite Z.eqb_refl.
    + intros q Hq Hne Hs. now rewrite slot_at_written_ne by (assumption || lia).
Qed.

(** X3.  Overwrite: a [put] that follows a successful [put] of the same
    key always succeeds, leaves [_keys] and [len] as they are, and [get]
    then returns the second value. *)
Theorem put_twice_overwrites self key v1 v2 t1 :
  wf self -> put self key v1 = Ok t1 ->
  exists t2, put t1 key v2 = Ok t2 /\ get t2 key = Ok v2 /\
    __len__ t2 = __len__ t1 /\ _keys t2 = _keys t1.
Proof.
  intros Hwf H1.
  pose proof (wf_put self key v1 t1 Hwf H1) as Hwf1.
  destruct (put_stops_again self key v1 t1 Hwf H1) as (p & Hp & Es).
  assert (H2 : put t1 key v2 = Ok (overwritten t1 p v2)).
  { unfold put. rewrite (put_fuel_first_stop t1 Hwf1 _ key v2 p) by (lia || assumption).
    rewrite Es. cbn. now rewrite Z.eqb_refl. }
  exists (overwritten t1 p v2). split; [exact H2|]. split; [|split; reflexivity].
  destruct (put_finds t1 Hwf1 key v2 _ H2) as (Hwf2 & _ & q & Hq & Hv).
  now rewrite (get_finds _ Hwf2 key q Hq), Hv.
Qed.

Lemma put_twice_overwrites_witness :
  exists t2, put (written (__init__ 11) 4 15 (PyStr "a")) 15 (PyStr "b") = Ok t2 /\
    get t2 15 = Ok (PyStr "b").
Proof.
  destruct (put_twice_overwrites (__init__ 11) 15 (PyStr "a") (PyStr "b")
              (written (__init__ 11) 4 15 (PyStr "a"))) as (t2 & E & G & _).
  - apply wf_init. reflexivity.
  - vm_compute. reflexivity.
  - exists t2. now split.
Defined.

Lemma get_absent self k :
  wf self -> chained self ->
  (forall p, 0 <= p < size self -> slot_at self p <> Key k) ->
  get self k = Ok PyNone.
Proof.
  intros Hwf Hc Hno.
  destruct (finds_decided self Hwf k) as [(p & Hp)|(_ & E & _)]; [|exact E].
  destruct (Hno p (first_stop_range self Hwf _ _ _ (proj1 Hp)) (proj2 Hp)).
Qed.

Lemma put_other_key self key value self' key' :
  wf self -> chained self -> key <> key' ->
  put self key value = Ok self' -> get self' key' = get self key'.
Proof.
  intros Hwf Hc Hne Hput.
  pose proof (wf_put self key value self' Hwf Hput) as Hwf'.
  destruct (finds_decided self Hwf key') as [(q & Hq)|(Hno & E & _)].
  - destruct (put_keeps_other self key value self' key' q Hwf Hne Hput Hq) as [Hq' Hv].
    rewrite (get_finds self Hwf key' q Hq), (get_finds self' Hwf' key' q Hq').
    now rewrite Hv.
  - rewrite E.
    destruct (finds_decided self' Hwf' key') as [(q & Hq & Es)|(_ & E' & _)]; [|exact E'].
    exfalso. pose proof (first_stop_range self' Hwf' _ _ _ Hq) as Hr.
    destruct (put_cases self Hwf key value) as [(p & Hp & Ep & Ef)|[(p & Hp & Ep & Ef)|[_ Ef]]];
      rewrite Ef in Hput; try discriminate; injection Hput as <-;
      pose proof (first_stop_range self Hwf _ _ _ Hp) as Hpr.
    + destruct (chained_finds self key' q Hwf Hc Hr Es) as (q' & Hq'). exact (Hno q' Hq').
    + change (0 <= q < size self) in Hr.
      destruct (Z.eq_dec q p) as [->|Hqp].
      * rewrite slot_at_written_eq in Es by assumption. congruence.
      * rewrite slot_at_written_ne in Es by (assumption || lia).
        destruct (chained_finds self key' q Hwf Hc Hr Es) as (q' & Hq'). exact (Hno q' Hq').
Qed.

Lemma del_other_key self key r self' key' :
  wf self -> chained self -> key <> key' ->
  del_ self key = Ok (r, self') -> get self' key' = get self key'.
Proof.
  intros Hwf Hc Hne Hdel.
  pose proof (wf_del self key r self' Hwf Hdel) as Hwf'.
  destruct (finds_decided self Hwf key') as [(q & Hq)|(Hno & E & _)].
  - destruct (del_keeps_other self key r self' key' q Hwf Hne Hdel Hq) as [Hq' Hv].
    rewrite (get_finds self Hwf key' q Hq), (get_finds self' Hwf' key' q Hq').
    now rewrite Hv.
  - rewrite E.
    destruct (finds_decided self' Hwf' key') as [(q & Hq & Es)|(_ & E' & _)]; [|exact E'].
    exfalso. pose proof (first_stop_range self' Hwf' _ _ _ Hq) as Hr.
    destruct (finds_decided self Hwf key) as [(p & Hp)|(_ & _ & Ed)].
    + rewrite (del_finds self Hwf key p Hp) in Hdel. injection Hdel as <- <-.
      pose proof (first_stop_range self Hwf _ _ _ (proj1 Hp)) as Hpr.
      change (0 <= q < size self) in Hr.
      destruct (Z.eq_dec q p) as [->|Hqp].
      * rewrite slot_at_tombstoned_eq in Es by assumption. discriminate.
      * rewrite slot_at_tombstoned_ne in Es by (assumption || lia).
        destruct (chained_finds self key' q Hwf Hc Hr Es) as (q' & Hq'). exact (Hno q' Hq').
    + rewrite Ed in Hdel. injection Hdel as <- <-.
      destruct (chained_finds self key' q Hwf Hc Hr Es) as (q' & Hq'). exact (Hno q' Hq').
Qed.

(** X4.  On every table reached from a fresh one by [put] and [del_]
    calls, a [put] changes what [get] returns for no other key. *)
Theorem put_leaves_other_keys n ops self key value self' key' :
  0 < n -> run ops (__init__ n) = Ok self ->
  key <> key' -> put self key value = Ok self' ->
  get self' key' = get self key'.
Proof.
  intros Hn Hrun Hne Hput.
  destruct (CInv_run ops _ _ (CInv_init n Hn) Hrun) as [[[Hwf _] Hc] _].
  exact (put_other_key self key value self' key' Hwf Hc Hne Hput).
Qed.

Lemma put_leaves_other_keys_witness :
  get (written (written (__init__ 11) 0 0 (PyStr "a")) 1 11 (PyStr "b")) 0
  = get (written (__init__ 11) 0 0 (PyStr "a")) 0.
Proof.
  apply (put_leaves_other_keys 11 [Put 0 (PyStr "a")]
           (written (__init__ 11) 0 0 (PyStr "a")) 11 (PyStr "b")).
  - lia.
  - vm_compute. reflexivity.
  - lia.
  - vm_compute. reflexivity.
Defined.

(** X5.  On every such table a [del_] changes what [get] returns for no
    other key; in particular the keys whose walk passes the freed cell
    are still found. *)
Theorem del_leaves_other_keys n ops self key r self' key' :
  0 < n -> run ops (__init__ n) = Ok self ->
  key <> key' -> del_ self key = Ok (r, self') ->
  get self' key' = get self key'.
Proof.
  intros Hn Hrun Hne Hdel.
  destruct (CInv_run ops _ _ (CInv_init n Hn) Hrun) as [[[Hwf _] Hc] _].
  exact (del_other_key self key r self' key' Hwf Hc Hne Hdel).
Qed.

Lemma del_leaves_other_keys_witness :
  get (tombstoned (written (written (__init__ 11) 0 0 (PyStr "a")) 1 11 (PyStr "b")) 0) 11
  = get (written (written (__init__ 11) 0 0 (PyStr "a")) 1 11 (PyStr "b")) 11.
Proof.
  apply (del_leaves_other_keys 11 [Put 0 (PyStr "a"); Put 11 (PyStr "b")]
           (written (written (__init__ 11) 0 0 (PyStr "a")) 1 11 (PyStr "b")) 0 PyNone).
  - lia.
  - vm_compute. reflexivity.
  - lia.
  - vm_compute. reflexivity.
Defined.

(** ** Tables in which no key sits in two cells *)

Lemma unique_finds self k p :
  wf self -> chained self -> unique_keys self ->
  0 <= p < size self -> slot_at self p = Key k -> finds self k p.
Proof.
  intros Hwf Hc Hu Hp Es.
  destruct (chained_finds self k p Hwf Hc Hp Es) as (q & Hq).
  pose proof (first_stop_range self Hwf _ _ _ (proj1 Hq)) as Hr.
  now rewrite (Hu p q k Hp Hr Es (proj2 Hq)).
Qed.

Lemma unique_keys_del self key r self' :
  wf self -> unique_keys self -> del_ self key = Ok (r, self') -> unique_keys self'.
Proof.
  intros Hwf Hu Hdel.
  destruct (finds_decided self Hwf key) as [(p & Hp)|(_ & _ & E)].
  - rewrite (del_finds self Hwf key p Hp) in Hdel. injection Hdel as <- <-.
    pose proof (first_stop_range self Hwf _ _ _ (proj1 Hp)) as Hr.
    intros a b k Ha Hb Ea Eb.
    change (0 <= a < size self) in Ha. change (0 <= b < size self) in Hb.
    destruct (Z.eq_dec a p) as [->|Hap];
      [rewrite slot_at_tombstoned_eq in Ea by assumption; discriminate|].
    destruct (Z.eq_dec b p) as [->|Hbp];
      [rewrite slot_at_tombstoned_eq in Eb by assumption; discriminate|].
    rewrite slot_at_tombstoned_ne in Ea, Eb by (assumption || lia).
    exact (Hu a b k Ha Hb Ea Eb).
  - rewrite E in Hdel. now injection Hdel as <- <-.
Qed.

Lemma del_removes_unique self key r self' :
  wf self -> chained self -> unique_keys self ->
  del_ self key = Ok (r, self') ->
  forall q, 0 <= q < size self' -> slot_at self' q <> Key key.
Proof.
  intros Hwf Hc Hu Hdel q Hq Es.
  destruct (finds_decided self Hwf key) as [(p & Hp)|(Hno & _ & E)].
  - rewrite (del_finds self Hwf key p Hp) in Hdel. injection Hdel as <- <-.
    pose proof (first_stop_range self Hwf _ _ _ (proj1 Hp)) as Hr.
    change (0 <= q < size self) in Hq.
    destruct (Z.eq_dec q p) as [->|Hqp];
      [rewrite slot_at_tombstoned_eq in Es by assumption; discriminate|].
    rewrite slot_at_tombstoned_ne in Es by (assumption || lia).
    apply Hqp. exact (Hu q p key Hq Hr Es (proj2 Hp)).
  - rewrite E in Hdel. injection Hdel as <- <-.
    destruct (chained_finds self key q Hwf Hc Hq Es) as (q' & Hq'). exact (Hno q' Hq').
Qed.

(** X6.  Delete removes: on a table reached from a fresh one by [put]
    and [del_] calls in which no key sits in two cells, after [del_(k)]
    no cell holds [k], [get(k)] returns [None], [k in table] is [False],
    and a second [del_(k)] leaves the table as it is. *)
Theorem delete_removes n ops self key r self' :
  0 < n -> run ops (__init__ n) = Ok self -> unique_keys self ->
  del_ self key = Ok (r, self') ->
  (forall q, 0 <= q < size self' -> slot_at self' q <> Key key) /\
  get self' key = Ok PyNone /\
  __contains__ self' key = Ok false /\
  del_ self' key = Ok (PyNone, self') /\
  unique_keys self'.
Proof.
  intros Hn Hrun Hu Hdel.
  destruct (CInv_run ops _ _ (CInv_init n Hn) Hrun) as [[[Hwf _] Hc] _].
  pose proof (wf_del self key r self' Hwf Hdel) as Hwf'.
  pose proof (chained_del self key r self' Hwf Hc Hdel) as Hc'.
  pose proof (del_removes_unique self key r self' Hwf Hc Hu Hdel) as Hno.
  pose proof (get_absent self' key Hwf' Hc' Hno) as Hget.
  split; [exact Hno|]. split; [exact Hget|].
  split; [unfold __contains__; now rewrite Hget|]. split.
  - destruct (finds_decided self' Hwf' key) as [(p & Hp)|(_ & _ & E)]; [|exact E].
    destruct (Hno p (first_stop_range self' Hwf' _ _ _ (proj1 Hp)) (proj2 Hp)).
  - exact (unique_keys_del self key r self' Hwf Hu Hdel).
Qed.

Lemma three_cells_unique :
  unique_keys (written (written (__init__ 3) 0 0 (PyStr "a")) 1 3 (PyStr "b")).
Proof.
  intros p q k Hp Hq. change (0 <= p < 3) in Hp. change (0 <= q < 3) in Hq.
  assert (Hpc : p = 0 \/ p = 1 \/ p = 2) by lia.
  assert (Hqc : q = 0 \/ q = 1 \/ q = 2) by lia.
  destruct Hpc as [-> | [-> | ->]]; destruct Hqc as [-> | [-> | ->]];
    vm_compute; congruence.
Qed.

Lemma delete_removes_witness :
  get (tombstoned (written (written (__init__ 3) 0 0 (PyStr "a")) 1 3 (PyStr "b")) 0) 0
  = Ok PyNone.
Proof.
  apply (delete_removes 3 [Put 0 (PyStr "a"); Put 3 (PyStr "b")]
           (written (written (__init__ 3) 0 0 (PyStr "a")) 1 3 (PyStr "b")) 0 PyNone).
  - lia.
  - vm_compute. reflexivity.
  - exact three_cells_unique.
  - vm_compute. reflexivity.
Defined.

(** X7.  Lookup agrees with the cells: on such a table [get(k)] returns
    the value stored beside [k] when a cell holds [k] and [None] when none
    does, and [k in table] is [True] exactly when a cell holds [k] with a
    value other than [None]. *)
Theorem lookup_agrees_with_cells n ops self k :
  0 < n -> run ops (__init__ n) = Ok self -> unique_keys self ->
  (forall v, holds self k v -> get self k = Ok v) /\
  ((forall v, ~ holds self k v) -> get self k = Ok PyNone) /\
  (__contains__ self k = Ok true <-> exists v, holds self k v /\ v <> PyNone).
Proof.
  intros Hn Hrun Hu.
  destruct (CInv_run ops _ _ (CInv_init n Hn) Hrun) as [[[Hwf _] Hc] _].
  assert (Hget : forall v, holds self k v -> get self k = Ok v).
  { intros v (p & Hp & Es & <-). apply get_finds; [assumption|].
    now apply unique_finds. }
  assert (Hnone : (forall v, ~ holds self k v) -> get self k = Ok PyNone).
  { intros Hno. apply get_absent; try assumption.
    intros p Hp Es. apply (Hno (value_at self p)). now exists p. }
  split; [exact Hget|]. split; [exact Hnone|]. unfold __contains__. split.
  - intros Hc'.
    destruct (finds_decided self Hwf k) as [(p & Hp)|(_ & E & _)].
    + rewrite (get_finds self Hwf k p Hp) in Hc'. cbn in Hc'.
      exists (value_at self p). split.
      * exists p. split; [exact (first_stop_range self Hwf _ _ _ (proj1 Hp))|].
        split; [apply Hp|reflexivity].
      * intros Ev. rewrite Ev in Hc'. discriminate.
    + rewrite E in Hc'. discriminate.
  - intros (v & Hv & Hne). rewrite (Hget v Hv). cbn. now destruct v.
Qed.

Lemma lookup_agrees_with_cells_witness :
  get (written (written (__init__ 3) 0 0 (PyStr "a")) 1 3 (PyStr "b")) 3
  = Ok (PyStr "b").
Proof.
  apply (lookup_agrees_with_cells 3 [Put 0 (PyStr "a"); Put 3 (PyStr "b")]
           (written (written (__init__ 3) 0 0 (PyStr "a")) 1 3 (PyStr "b")) 3).
  - lia.
  - vm_compute. reflexivity.
  - exact three_cells_unique.
  - exists 1. repeat split; vm_compute; congruence.
Defined.

(** X8.  A fresh table of any positive capacity is empty to every call:
    [len] is 0, and for every key [get] returns [None], [in] is [False]
    and [del_] leaves the table as it is. *)
Theorem fresh_table_is_empty n key :
  0 < n ->
  __len__ (__init__ n) = 0 /\
  get (__init__ n) key = Ok PyNone /\
  __contains__ (__init__ n) key = Ok false /\
  del_ (__init__ n) key = Ok (PyNone, __init__ n).
Proof.
  intros Hn. pose proof (get_init n key Hn) as Hget.
  split; [reflexivity|]. split; [exact Hget|].
  split; [unfold __contains__; now rewrite Hget|].
  destruct (finds_decided (__init__ n) (wf_init n Hn) key) as [(p & _ & Es)|(_ & _ & E)];
    [|exact E].
  rewrite slot_at_init in Es. discriminate.
Qed.

Lemma fresh_table_is_empty_witness : get (__init__ 11) 42 = Ok PyNone.
Proof. apply (fresh_table_is_empty 11 42). lia. Defined.

(** ** The growing table under puts and deletes *)

Lemma Inv_CInv self : Inv self -> CInv self.
Proof.
  intros (Hwf & _ & Hf & Hl). split; [now split|].
  intros j k Hj Es j' Hj' Ee.
  destruct (Hf _ k (pos_range self Hwf _ j) Es) as [(j0 & Hj0 & Ep & _ & Hb) _].
  apply (pos_inj self Hwf) in Ep; [|lia..]. subst j0.
  specialize (Hb j' Hj'). rewrite Ee in Hb. discriminate.
Qed.

Lemma put_with_room self key value :
  LInv self -> _len self < size self -> exists self', put self key value = Ok self'.
Proof.
  intros [Hwf Hl] Hroom.
  destruct (put_cases self Hwf key value) as [(p & _ & _ & E)|[(p & _ & _ & E)|[Hfull _]]];
    [eauto..|].
  exfalso.
  assert (Hall : count_keys (_keys self) = Z.of_nat (length (_keys self))).
  { apply count_keys_all. intros n Hn.
    destruct (pos_cover self Hwf (key mod size self) (Z.of_nat n)) as (j & Hj & Ej).
    { destruct Hwf as (_ & Hk & _). lia. }
    specialize (Hfull j Hj). rewrite <- Ej in Hfull.
    unfold slot_at in Hfull. rewrite Nat2Z.id in Hfull.
    now destruct (default Empty (_keys self !! n)). }
  destruct Hwf as (_ & Hk & _). lia.
Qed.

Lemma zip_distinct_unique self :
  wf self -> unique_keys self -> distinct_keys (zip (_keys self) (_values self)).
Proof.
  intros Hwf Hu i j k v v' Hi Hj.
  apply lookup_zip_Some in Hi as [Hi _]. apply lookup_zip_Some in Hj as [Hj _].
  pose proof (lookup_lt_Some _ _ _ Hi) as Hli.
  pose proof (lookup_lt_Some _ _ _ Hj) as Hlj.
  assert (E : Z.of_nat i = Z.of_nat j).
  { destruct Hwf as (_ & Hlk & _).
    apply (Hu _ _ k); try lia; unfold slot_at; rewrite Nat2Z.id.
    - now rewrite Hi.
    - now rewrite Hj. }
  lia.
Qed.

Section GrowRuns.
Variable resize_due : HashTable.t -> bool.
Hypothesis due_half : forall u, 6 <= size u -> 0 <= 2 * _len u <= size u ->
  resize_due u = false.
Hypothesis due_room : forall u, 0 < size u -> resize_due u = false ->
  _len u < size u.
Hypothesis due_mono : forall u u', size u' = size u -> _len u' <= _len u ->
  resize_due u = false -> resize_due u' = false.

Local Abbreviation gput := (ResizableHashTable.put resize_due).

(** Reinsertion into a table that stays at most half full: every [put]
    succeeds and none sets off a resize, whatever keys come. *)
Lemma reinsert_total d :
  forall es u,
    Inv u -> 6 <= size u -> 2 * (_len u + Z.of_nat (length es)) <= size u ->
    exists u', ResizableHashTable.reinsert (gput (S d)) es u = Ok u' /\
      Inv u' /\ size u' = size u /\ _len u' <= _len u + Z.of_nat (length es).
Proof.
  induction es as [|[slot value] es IH]; intros u HInv Hsz Hlen.
  - exists u. split; [reflexivity|]. split; [assumption|]. split; [reflexivity|].
    cbn. lia.
  - cbn [length] in Hlen.
    destruct slot as [| |key].
    + destruct (IH u HInv Hsz) as (u' & E & HI & Hs & Hl); [lia|].
      exists u'. split; [exact E|]. split; [assumption|]. split; [assumption|].
      cbn [length]. lia.
    + destruct (IH u HInv Hsz) as (u' & E & HI & Hs & Hl); [lia|].
      exists u'. split; [exact E|]. split; [assumption|]. split; [assumption|].
      cbn [length]. lia.
    + destruct (rput_below resize_due due_half u key value d HInv Hsz)
        as (u1 & E1 & HI1 & Hs1 & _ & _ & Hl1); [lia|].
      destruct (IH u1 HI1) as (u' & E & HI & Hs & Hl); [lia|lia|].
      exists u'. split; [cbn [ResizableHashTable.reinsert]; rewrite E1; exact E|].
      split; [assumption|]. split; [congruence|]. cbn [length]. lia.
Qed.

(** [_resize] succeeds on every well-formed table of capacity 3 or more
    and leaves a table without tombstones. *)
Lemma resize_total self d :
  wf self -> 3 <= size self ->
  exists self', ResizableHashTable._resize (gput (S d)) self = Ok self' /\
    Inv self' /\ size self' = size self * 2 /\ _len self' <= size self.
Proof.
  intros Hwf Hsz. unfold ResizableHashTable._resize.
  change (HashTable.mk (size self * 2) 0 _ _) with (__init__ (size self * 2)).
  destruct (reinsert_total d (zip (_keys self) (_values self)) (__init__ (size self * 2)))
    as (self' & E & HI & Hs & Hl).
  - apply Inv_init. lia.
  - cbn. lia.
  - rewrite length_zip. destruct Hwf as (_ & Hlk & Hlv). cbn. lia.
  - exists self'. split; [exact E|]. split; [assumption|]. split; [exact Hs|].
    rewrite length_zip in Hl. destruct Hwf as (_ & Hlk & Hlv). cbn in Hl. lia.
Qed.

Lemma grow_put_total self key value d :
  CInv self -> 3 <= size self -> resize_due self = false ->
  exists self', gput (S (S d)) self key value = Ok self' /\
    CInv self' /\ size self <= size self' /\ resize_due self' = false.
Proof.
  intros [HL Hc] Hsz Hdue.
  assert (Hroom : _len self < size self) by (apply due_room; [lia|assumption]).
  destruct (put_with_room self key value HL Hroom) as (self1 & E).
  destruct (LInv_put self key value self1 HL E) as (HL1 & Hs1 & _).
  pose proof (chained_put self key value self1 (proj1 HL) Hc E) as Hc1.
  cbn [ResizableHashTable.put]. rewrite E. cbn [bind].
  destruct (resize_due self1) eqn:Hdue1.
  - destruct (resize_total self1 d (proj1 HL1)) as (self' & E' & HI & Hs' & Hl'); [lia|].
    exists self'. split; [exact E'|]. split; [now apply Inv_CInv|].
    split; [lia|]. apply due_half; [lia|].
    destruct HI as (_ & _ & _ & Hcount).
    pose proof (count_keys_bounds (_keys self')). lia.
  - exists self1. split; [reflexivity|]. split; [now split|]. split; [lia|assumption].
Qed.

Lemma grow_run_total d ops :
  forall self, CInv self -> 3 <= size self -> resize_due self = false ->
    exists self', grow_run resize_due (S (S d)) ops self = Ok self' /\
      CInv self' /\ size self <= size self' /\ resize_due self' = false.
Proof.
  induction ops as [|o ops IH]; intros self HC Hsz Hdue.
  - exists self. split; [reflexivity|]. split; [assumption|]. split; [lia|assumption].
  - assert (Hstep : exists t, grow_apply resize_due (S (S d)) self o = Ok t /\
        CInv t /\ size self <= size t /\ resize_due t = false).
    { destruct o as [key value|key].
      - exact (grow_put_total self key value d HC Hsz Hdue).
      - destruct (finds_decided self (proj1 (proj1 HC)) key) as [(p & Hp)|(_ & _ & E)].
        + pose proof (del_finds self (proj1 (proj1 HC)) key p Hp) as E.
          destruct (LInv_del self key _ _ (proj1 HC) E) as (HL' & Hs' & Hl').
          exists (tombstoned self p). split; [cbn; now rewrite E|].
          split; [split; [assumption|]|].
          * exact (chained_del self key _ _ (proj1 (proj1 HC)) (proj2 HC) E).
          * split; [cbn; lia|]. apply (due_mono self); [reflexivity|cbn; lia|assumption].
        + exists self. split; [cbn; now rewrite E|].
          split; [assumption|]. split; [lia|assumption]. }
    destruct Hstep as (t & Et & HCt & Hst & Hduet).
    destruct (IH t HCt) as (self' & E' & HC' & Hs' & Hdue'); [lia|assumption|].
    exists self'. split; [cbn [grow_run]; rewrite Et; exact E'|].
    split; [assumption|]. split; [lia|assumption].
Qed.

Lemma grow_run_from_init depth ops :
  (2 <= depth)%nat ->
  exists self, grow_run resize_due depth ops ResizableHashTable.__init__ = Ok self /\
    CInv self /\ 8 <= size self /\ resize_due self = false.
Proof.
  intros Hdepth. destruct depth as [|[|d]]; try lia.
  destruct (grow_run_total d ops ResizableHashTable.__init__) as (self & E & HC & Hs & Hdue).
  - apply CInv_init. reflexivity.
  - unfold ResizableHashTable.__init__, ResizableHashTable.MIN_SIZE. cbn. lia.
  - apply due_half; unfold ResizableHashTable.__init__, ResizableHashTable.MIN_SIZE;
      cbn; lia.
  - exists self. split; [exact E|]. split; [assumption|]. split; [|assumption].
    unfold ResizableHashTable.__init__, ResizableHashTable.MIN_SIZE in Hs. cbn in Hs. lia.
Qed.

(** [_resize] on a table in which no key sits in two cells. *)
Lemma resize_unique self d :
  CInv self -> unique_keys self -> 3 <= size self ->
  exists self', ResizableHashTable._resize (gput (S d)) self = Ok self' /\
    Inv self' /\ size self' = size self * 2 /\ _len self' = _len self /\
    forall k, get self' k = get self k.
Proof.
  intros [[Hwf Hlen] Hc] Hu Hsz. unfold ResizableHashTable._resize.
  change (HashTable.mk (size self * 2) 0 _ _) with (__init__ (size self * 2)).
  destruct (reinsert_Inv resize_due due_half d (zip (_keys self) (_values self))
              (__init__ (size self * 2))) as (self' & E & HI & Hs & Hl & Hh).
  - apply Inv_init. lia.
  - now apply zip_distinct_unique.
  - intros k v v' _. apply holds_init.
  - cbn. lia.
  - rewrite length_zip. destruct Hwf as (_ & Hlk & Hlv). cbn. lia.
  - exists self'. split; [exact E|]. split; [assumption|]. split; [exact Hs|]. split.
    + rewrite Hl, fst_zip, Hlen; [reflexivity|]. destruct Hwf as (_ & Hlk & Hlv). lia.
    + assert (Hh' : forall k v, holds self' k v <-> holds self k v).
      { intros k v. rewrite Hh, (zip_holds self k v Hwf). split; [|tauto].
        intros [H|H]; [destruct (holds_init _ _ _ H)|assumption]. }
      intros k.
      destruct (finds_decided self Hwf k) as [(p & Hp)|(Hno & Eg & _)].
      * rewrite (get_finds self Hwf k p Hp). apply Inv_get; [assumption|].
        apply Hh'. exists p.
        split; [exact (first_stop_range self Hwf _ _ _ (proj1 Hp))|].
        split; [apply Hp|reflexivity].
      * rewrite Eg. pose proof HI as (Hwf' & _ & _ & _).
        destruct (finds_decided self' Hwf' k) as [(q & Hq)|(_ & Eg' & _)]; [|exact Eg'].
        exfalso.
        assert (Hq' : holds self' k (value_at self' q)).
        { exists q. split; [exact (first_stop_range self' Hwf' _ _ _ (proj1 Hq))|].
          split; [apply Hq|reflexivity]. }
        apply Hh' in Hq' as (p & Hp & Es & _).
        destruct (chained_finds self k p Hwf Hc Hp Es) as (p' & Hp'). exact (Hno p' Hp').
Qed.
End GrowRuns.

Lemma due_floor_mono u u' :
  size u' = size u -> _len u' <= _len u ->
  ResizableHashTable.due_floor u = false -> ResizableHashTable.due_floor u' = false.
Proof.
  unfold ResizableHashTable.due_floor, __len__. rewrite !Z.geb_leb. intros -> Hl H.
  destruct (Z.leb_spec (size u * 2 / 3) (_len u)); [discriminate|].
  destruct (Z.leb_spec (size u * 2 / 3) (_len u')); [lia|reflexivity].
Qed.

Lemma due_true_division_mono u u' :
  size u' = size u -> _len u' <= _len u ->
  ResizableHashTable.due_true_division u = false ->
  ResizableHashTable.due_true_division u' = false.
Proof.
  intros Hs Hl H. destruct (ResizableHashTable.due_true_division u') eqn:E; [|reflexivity].
  apply due_true_division_spec in E.
  assert (E' : ResizableHashTable.due_true_division u = true)
    by (apply due_true_division_spec; lia).
  congruence.
Qed.

(** X9.  On the growing table [put] never fails: every run of [put] and
    [del_] calls on a fresh [ResizableHashTable], in any order and with
    any keys, runs through (with [put] and [_resize] nesting two deep at
    most), and leaves a table of capacity 8 or more whose [len] counts the
    occupied cells and is under the resize load; with the test of
    chatgpt6.py as with the one of gemini6.py and Claude6.py. *)
Theorem growing_table_never_full ops depth :
  (2 <= depth)%nat ->
  (exists self,
     grow_run ResizableHashTable.due_floor depth ops ResizableHashTable.__init__
       = Ok self /\
     8 <= size self /\ __len__ self = count_keys (_keys self) /\
     __len__ self < (size self * 2) / 3) /\
  (exists self,
     grow_run ResizableHashTable.due_true_division depth ops ResizableHashTable.__init__
       = Ok self /\
     8 <= size self /\ __len__ self = count_keys (_keys self) /\
     __len__ self * 3 < size self * 2).
Proof.
  intros Hdepth. split.
  - destruct (grow_run_from_init ResizableHashTable.due_floor due_floor_half
                due_floor_room due_floor_mono depth ops Hdepth)
      as (self & E & [[_ Hl] _] & Hs & Hdue).
    exists self. split; [exact E|]. split; [exact Hs|]. split; [exact Hl|].
    unfold ResizableHashTable.due_floor in Hdue. rewrite Z.geb_leb in Hdue.
    now apply Z.leb_gt in Hdue.
  - destruct (grow_run_from_init ResizableHashTable.due_true_division
                due_true_division_half due_true_division_room due_true_division_mono
                depth ops Hdepth)
      as (self & E & [[_ Hl] _] & Hs & Hdue).
    exists self. split; [exact E|]. split; [exact Hs|]. split; [exact Hl|].
    destruct (Z_lt_le_dec (__len__ self * 3) (size self * 2)) as [|Hge]; [assumption|].
    assert (E' : ResizableHashTable.due_true_division self = true)
      by (apply due_true_division_spec; unfold __len__ in Hge; lia).
    congruence.
Qed.

Lemma growing_table_never_full_witness :
  exists self,
    grow_run ResizableHashTable.due_floor 2
      [Put 0 (PyStr "a"); Put 8 (PyStr "b"); Del 0; Put 8 (PyStr "c"); Put 16 PyNone]
      ResizableHashTable.__init__ = Ok self /\
    8 <= size self.
Proof.
  destruct (growing_table_never_full
              [Put 0 (PyStr "a"); Put 8 (PyStr "b"); Del 0; Put 8 (PyStr "c"); Put 16 PyNone]
              2) as [(self & E & Hs & _) _].
  - lia.
  - exists self. now split.
Defined.

(** X10.  [_resize] keeps every entry and drops the tombstones: on a
    table reached by [put] and [del_] calls on a fresh
    [ResizableHashTable] in which no key sits in two cells, it returns a
    table of twice the capacity with the same [len], no Deleted cell, and
    the same answer of [get] for every key. *)
Theorem resize_keeps_entries ops depth d self :
  (2 <= depth)%nat ->
  grow_run ResizableHashTable.due_floor depth ops ResizableHashTable.__init__ = Ok self ->
  unique_keys self ->
  exists self',
    ResizableHashTable._resize
      (ResizableHashTable.put ResizableHashTable.due_floor (S d)) self = Ok self' /\
    size self' = size self * 2 /\ __len__ self' = __len__ self /\
    (forall p, 0 <= p < size self' -> slot_at self' p <> Deleted) /\
    forall k, get self' k = get self k.
Proof.
  intros Hdepth Hrun Hu.
  destruct (grow_run_from_init ResizableHashTable.due_floor due_floor_half
              due_floor_room due_floor_mono depth ops Hdepth)
    as (self0 & E & HC & Hs & _).
  rewrite Hrun in E. injection E as <-.
  destruct (resize_unique ResizableHashTable.due_floor due_floor_half self d HC Hu)
    as (self' & E' & HI & Hs' & Hl & Hg); [lia|].
  exists self'. split; [exact E'|]. split; [exact Hs'|]. split; [exact Hl|].
  split; [apply HI|exact Hg].
Qed.

Lemma one_entry_unique : unique_keys (written (__init__ 8) 1 9 (PyStr "a")).
Proof.
  assert (H : forall p k, 0 <= p < 8 ->
            slot_at (written (__init__ 8) 1 9 (PyStr "a")) p = Key k -> p = 1).
  { intros p k Hp Es. destruct (Z.eq_dec p 1) as [|Hne]; [assumption|].
    rewrite slot_at_written_ne, slot_at_init in Es; [discriminate|cbn; lia|lia|assumption]. }
  intros p q k Hp Hq Ep Eq. change (0 <= p < 8) in Hp. change (0 <= q < 8) in Hq.
  rewrite (H p k Hp Ep), (H q k Hq Eq). reflexivity.
Qed.

Lemma resize_keeps_entries_witness :
  exists self',
    ResizableHashTable._resize
      (ResizableHashTable.put ResizableHashTable.due_floor 1)
      (written (__init__ 8) 1 9 (PyStr "a")) = Ok self' /\
    get self' 9 = get (written (__init__ 8) 1 9 (PyStr "a")) 9.
Proof.
  destruct (resize_keeps_entries [Put 9 (PyStr "a")] 2 0
              (written (__init__ 8) 1 9 (PyStr "a")))
    as (self' & E & _ & _ & _ & Hg).
  - lia.
  - vm_compute. reflexivity.
  - exact one_entry_unique.
  - exists self'. split; [exact E|apply Hg].
Defined.

(** ** The guarded [put] of deepseek6.py *)

Lemma deepseek_loop_Ok :
  forall fuel self key value h0 h t,
    put_loop fuel self key value h0 h = Ok t ->
    Deepseek6.put_loop fuel self key value h0 h = Ok t.
Proof.
  induction fuel as [|fuel IH]; intros self key value h0 h t H; cbn in *; [discriminate|].
  destruct (getitem (_keys self) h) as [slot| |]; cbn in *; try discriminate.
  destruct (is_empty slot || is_deleted slot); [assumption|].
  destruct (slot_eq slot key); [assumption|].
  destruct (_rehash self h) as [next| |]; cbn in *; try discriminate.
  destruct (next =? h0); [discriminate|]. now apply IH.
Qed.

Lemma deepseek_put_Ok self key value t :
  _len self < size self -> put self key value = Ok t ->
  Deepseek6.put self key value = Ok t.
Proof.
  intros Hroom H. unfold Deepseek6.put, Deepseek6.put_fuel.
  rewrite Z.geb_leb. destruct (Z.leb_spec (size self) (_len self)); [lia|].
  unfold put, put_fuel in H.
  destruct (hash self key) as [h| |]; cbn in *; try discriminate.
  now apply deepseek_loop_Ok.
Qed.

(** X11.  With [len] counting the occupied cells, the [put] of
    deepseek6.py raises its table-full error exactly when [len] has
    reached the capacity, also for a key that is already in the table;
    below that it succeeds and returns the table the [put] of the other
    variants returns, so the second [raise] in its loop is never
    reached. *)
Theorem deepseek_put_guard self key value :
  LInv self ->
  (size self <= __len__ self ->
   Deepseek6.put self key value = Raise (ValueError Deepseek6.full_msg)) /\
  (__len__ self < size self ->
   exists self', Deepseek6.put self key value = Ok self' /\
     put self key value = Ok self').
Proof.
  intros HL. unfold __len__. split.
  - intros Hfull. unfold Deepseek6.put, Deepseek6.put_fuel. rewrite Z.geb_leb.
    destruct (Z.leb_spec (size self) (_len self)); [reflexivity|lia].
  - intros Hroom. destruct (put_with_room self key value HL Hroom) as (self' & E).
    exists self'. split; [now apply deepseek_put_Ok|exact E].
Qed.

Lemma deepseek_put_guard_witness :
  Deepseek6.put (mk 3 3 [Key 0; Key 1; Key 2] [PyInt 0; PyInt 1; PyInt 2]) 1 (PyInt 7)
  = Raise (ValueError Deepseek6.full_msg).
Proof.
  apply (deepseek_put_guard (mk 3 3 [Key 0; Key 1; Key 2] [PyInt 0; PyInt 1; PyInt 2])
           1 (PyInt 7)).
  - split; [repeat split; reflexivity|reflexivity].
  - cbn. lia.
Defined.

Section ResizeVariants.
Variable resize_due : HashTable.t -> bool.
Hypothesis due_half : forall u, 6 <= size u -> 0 <= 2 * _len u <= size u ->
  resize_due u = false.

Lemma reinsert_same d :
  forall es u,
    Inv u -> 6 <= size u -> 2 * (_len u + Z.of_nat (length es)) <= size u ->
    ResizableHashTable.reinsert Deepseek6.put es u =
    ResizableHashTable.reinsert (ResizableHashTable.put resize_due (S d)) es u.
Proof.
  induction es as [|[slot value] es IH]; intros u HInv Hsz Hlen; [reflexivity|].
  cbn [length] in Hlen.
  destruct slot as [| |key]; cbn [ResizableHashTable.reinsert];
    [apply IH; (assumption || lia)..|].
  assert (Hroom : _len u < size u) by lia.
  destruct (put_Inv u key value HInv Hroom) as (u1 & E & HI1 & Hs1 & _ & _ & Hl1).
  rewrite (deepseek_put_Ok u key value u1 Hroom E).
  cbn [ResizableHashTable.put]. rewrite E. cbn [bind].
  rewrite due_half; [|lia|].
  - apply IH; [assumption|lia|lia].
  - destruct HI1 as (_ & _ & _ & Hc). pose proof (count_keys_bounds (_keys u1)). lia.
Qed.
End ResizeVariants.

(** X12.  The two ways of writing [_resize] agree: reinserting with the
    base [put] (deepseek6.py) and reinserting with the overriding [put]
    (chatgpt6.py, gemini6.py, Claude6.py) return the same table on every
    well-formed table of capacity 3 or more, whatever it holds. *)
Theorem resize_variants_agree self d :
  wf self -> 3 <= size self ->
  Deepseek6._resize self =
    ResizableHashTable._resize
      (ResizableHashTable.put ResizableHashTable.due_floor (S d)) self /\
  Deepseek6._resize self =
    ResizableHashTable._resize
      (ResizableHashTable.put ResizableHashTable.due_true_division (S d)) self.
Proof.
  intros Hwf Hsz. unfold Deepseek6._resize, ResizableHashTable._resize.
  change (HashTable.mk (size self * 2) 0 _ _) with (__init__ (size self * 2)).
  assert (HI : Inv (__init__ (size self * 2))) by (apply Inv_init; lia).
  assert (Hl : 2 * (_len (__init__ (size self * 2))
                    + Z.of_nat (length (zip (_keys self) (_values self))))
               <= size (__init__ (size self * 2))).
  { rewrite length_zip. destruct Hwf as (_ & Hlk & Hlv). cbn. lia. }
  split; apply reinsert_same; try assumption;
    try apply due_floor_half; try apply due_true_division_half; cbn; lia.
Qed.

Lemma resize_variants_agree_witness :
  Deepseek6._resize (mk 3 3 [Key 0; Key 1; Key 2] [PyInt 0; PyInt 1; PyInt 2]) =
  ResizableHashTable._resize
    (ResizableHashTable.put ResizableHashTable.due_floor 1)
    (mk 3 3 [Key 0; Key 1; Key 2] [PyInt 0; PyInt 1; PyInt 2]).
Proof.
  apply (resize_variants_agree (mk 3 3 [Key 0; Key 1; Key 2] [PyInt 0; PyInt 1; PyInt 2]) 0).
  - repeat split; reflexivity.
  - cbn. lia.
Defined.

(** ** The double-hash strategy *)

Section DoubleHashMore.
Variable check_prime : Z -> bool.
Variable next_prime : Z -> Z.
Variable self : dh_table.

Lemma Copilot1_loop_usable :
  forall fuel key data i new_key p,
    Copilot1.collision_loop check_prime next_prime self fuel key data i new_key
      = Ok (Some p) ->
    exists v, getitem (values self) p = Ok v /\ occupied_by_other v key = false.
Proof.
  induction fuel as [|fuel IH]; intros key data i new_key p H; cbn in H; [discriminate|].
  destruct (getitem (values self) new_key) as [v| |] eqn:Ev; cbn in H; try discriminate.
  destruct (occupied_by_other v key) eqn:Eo.
  - destruct (Qle_bool _ _); [|discriminate].
    destruct (Copilot1.__hash_double_function _ _ _ _ _ _) as [nk| |]; cbn in H;
      try discriminate.
    exact (IH _ _ _ _ _ H).
  - injection H as <-. now exists v.
Qed.

Lemma Claude1_loop_usable :
  forall fuel key data i position p,
    Claude1.collision_loop check_prime next_prime self fuel key data i position
      = Ok (Some p) ->
    exists v, getitem (values self) p = Ok v /\ occupied_by_other v key = false.
Proof.
  induction fuel as [|fuel IH]; intros key data i position p H; cbn in H; [discriminate|].
  destruct (getitem (values self) position) as [v| |] eqn:Ev; cbn in H; try discriminate.
  destruct (occupied_by_other v key) eqn:Eo.
  - destruct (Qle_bool _ _); [discriminate|].
    destruct (Claude1._calculate_probe_position _ _ _ _ _ _) as [nk| |]; cbn in H;
      try discriminate.
    exact (IH _ _ _ _ _ H).
  - injection H as <-. now exists v.
Qed.

Lemma hash_2_range key data :
  let r := key mod size_table self in
  let p := if check_prime r then r else next_prime r in
  size_table self <> 0 -> 0 < p ->
  Copilot1.__hash_function_2 check_prime next_prime self key data
    = Ok (p - data mod p) /\ 1 <= p - data mod p <= p.
Proof.
  intros r p Hs Hp. unfold Copilot1.__hash_function_2, py_mod.
  destruct (Z.eqb_spec (size_table self) 0) as [|_]; [contradiction|]. cbn [bind].
  fold r. replace (if negb (check_prime r) then next_prime r else r) with p
    by (subst p; now destruct (check_prime r)).
  destruct (Z.eqb_spec p 0) as [|_]; [lia|]. cbn [bind].
  split; [reflexivity|]. pose proof (Z.mod_pos_bound data p Hp). lia.
Qed.

(** With the table as long as [size_table] says, the home slot inside it
    and a positive prime, the loop reads inside the list only. *)
Lemma Copilot1_loop_no_raise key data :
  let r := key mod size_table self in
  let p := if check_prime r then r else next_prime r in
  0 < size_table self -> 0 < p ->
  Z.of_nat (length (values self)) = size_table self ->
  forall fuel i new_key e, 0 <= new_key < size_table self ->
    Copilot1.collision_loop check_prime next_prime self fuel key data i new_key
      <> Raise e.
Proof.
  intros r p Hs Hp Hlen.
  induction fuel as [|fuel IH]; intros i new_key e Hk; cbn; [discriminate|].
  rewrite (getitem_in_range (values self) new_key None) by lia. cbn [bind].
  destruct (occupied_by_other _ key); [|discriminate].
  destruct (Qle_bool _ _); [|discriminate].
  rewrite (probe_position_formula check_prime next_prime self key data i) by (fold r p; lia).
  cbn [bind]. apply IH. apply Z.mod_pos_bound. lia.
Qed.

Lemma Claude1_loop_no_raise key data :
  let r := key mod size_table self in
  let p := if check_prime r then r else next_prime r in
  0 < size_table self -> 0 < p ->
  Z.of_nat (length (values self)) = size_table self ->
  forall fuel i position e, 0 <= position < size_table self ->
    Claude1.collision_loop check_prime next_prime self fuel key data i position
      <> Raise e.
Proof.
  intros r p Hs Hp Hlen.
  induction fuel as [|fuel IH]; intros i position e Hk; cbn; [discriminate|].
  rewrite (getitem_in_range (values self) position None) by lia. cbn [bind].
  destruct (occupied_by_other _ key); [|discriminate].
  destruct (Qle_bool _ _); [discriminate|].
  rewrite probe_position_same.
  rewrite (probe_position_formula check_prime next_prime self key data i) by (fold r p; lia).
  cbn [bind]. apply IH. apply Z.mod_pos_bound. lia.
Qed.
End DoubleHashMore.

(** X13.  Whatever position [_collision_resolution] returns is usable:
    the cell there is free or holds the key passed in.  This holds for
    Copilot1.py (and gemini1.py) and for Claude1.py, for every table and
    every fuel. *)
Theorem collision_resolution_returns_usable_cell check_prime next_prime self fuel key data p :
  (Copilot1._collision_resolution check_prime next_prime self fuel key data = Ok (Some p) ->
   exists v, getitem (values self) p = Ok v /\ (v = None \/ v = Some key)) /\
  (Claude1._collision_resolution check_prime next_prime self fuel key data = Ok (Some p) ->
   exists v, getitem (values self) p = Ok v /\ (v = None \/ v = Some key)).
Proof.
  assert (Hu : forall v, occupied_by_other v key = false -> v = None \/ v = Some key).
  { intros [d|] H; [|now left]. right. cbn in H.
    apply negb_false_iff, Z.eqb_eq in H. now subst. }
  split; intros H.
  - destruct (Copilot1_loop_usable _ _ _ _ _ _ _ _ _ H) as (v & Hv & Ho). exists v. auto.
  - destruct (Claude1_loop_usable _ _ _ _ _ _ _ _ _ H) as (v & Hv & Ho). exists v. auto.
Qed.

(** X14.  With a positive capacity and a positive prime [p] (what
    [check_prime] and [next_prime] choose at the remainder of the key),
    the secondary hash lies between 1 and [p], so the step is never 0
    before the reduction modulo the capacity, and the probe position lies
    inside the table; in Copilot1.py and in Claude1.py. *)
Theorem secondary_hash_positive (check_prime : Z -> bool) (next_prime : Z -> Z)
    self key data i :
  let r := key mod size_table self in
  let p := if check_prime r then r else next_prime r in
  0 < size_table self -> 0 < p ->
  exists h q,
    Copilot1.__hash_function_2 check_prime next_prime self key data = Ok h /\
    Claude1._calculate_second_hash check_prime next_prime self key data = Ok h /\
    1 <= h <= p /\
    Copilot1.__hash_double_function check_prime next_prime self key data i = Ok q /\
    Claude1._calculate_probe_position check_prime next_prime self key data i = Ok q /\
    0 <= q < size_table self.
Proof.
  intros r p Hs Hp.
  destruct (hash_2_range check_prime next_prime self key data) as [Eh Hr];
    [lia|exact Hp|]. fold r p in Eh, Hr.
  exists (p - data mod p), ((i * (p - data mod p)) mod size_table self).
  split; [exact Eh|]. split.
  - unfold Claude1._calculate_second_hash, Claude1._get_secondary_prime, py_mod.
    destruct (Z.eqb_spec (size_table self) 0) as [|_]; [lia|]. cbn [bind]. fold r.
    replace (if check_prime r then Ok r else Ok (next_prime r)) with (@Ok Z p)
      by (subst p; now destruct (check_prime r)).
    cbn [bind]. destruct (Z.eqb_spec p 0) as [|_]; [lia|]. reflexivity.
  - split; [exact Hr|]. rewrite probe_position_same.
    rewrite (probe_position_formula check_prime next_prime self key data i)
      by (fold r p; lia).
    fold r p. split; [reflexivity|]. split; [reflexivity|].
    apply Z.mod_pos_bound. lia.
Qed.

Lemma secondary_hash_positive_witness :
  exists h q,
    Copilot1.__hash_function_2 check_prime_model next_prime_model (dh_make 11 [] 1) 4 7
      = Ok h /\ 1 <= h /\
    Copilot1.__hash_double_function check_prime_model next_prime_model
      (dh_make 11 [] 1) 4 7 2 = Ok q /\ 0 <= q < 11.
Proof.
  destruct (secondary_hash_positive check_prime_model next_prime_model
              (dh_make 11 [] 1) 4 7 2) as (h & q & Eh & _ & Hh & Eq & _ & Hq).
  - cbn. lia.
  - vm_compute. reflexivity.
  - change (size_table (dh_make 11 [] 1)) with 11 in Hq.
    exists h, q. split; [exact Eh|]. split; [apply Hh|]. split; [exact Eq|exact Hq].
Defined.

(** X15.  With the list [values] as long as [size_table] says, the home
    slot inside the table and a positive prime, [_collision_resolution]
    raises no exception: it returns a position, returns [None], or keeps
    probing; in Copilot1.py and in Claude1.py. *)
Theorem collision_resolution_never_raises (check_prime : Z -> bool)
    (next_prime : Z -> Z) self fuel key data e :
  let r := key mod size_table self in
  let p := if check_prime r then r else next_prime r in
  0 < size_table self -> 0 < p ->
  Z.of_nat (length (values self)) = size_table self ->
  0 <= hash_function self data < size_table self ->
  Copilot1._collision_resolution check_prime next_prime self fuel key data <> Raise e /\
  Claude1._collision_resolution check_prime next_prime self fuel key data <> Raise e.
Proof.
  intros r p Hs Hp Hlen Hh. split.
  - now apply Copilot1_loop_no_raise.
  - now apply Claude1_loop_no_raise.
Qed.

Lemma collision_resolution_never_raises_witness :
  Copilot1._collision_resolution check_prime_model next_prime_model dh_at_ceiling 5 0 4
  <> Raise IndexError.
Proof.
  apply (collision_resolution_never_raises check_prime_model next_prime_model
           dh_at_ceiling 5 0 4 IndexError).
  - cbn. lia.
  - vm_compute. reflexivity.
  - reflexivity.
  - vm_compute. split; [discriminate|reflexivity].
Defined.

(** ** Tombstones stay *)

Lemma apply_op_keeps_nonempty self o self' p :
  wf self -> apply_op self o = Ok self' -> 0 <= p < size self ->
  slot_at self' p = Empty -> slot_at self p = Empty.
Proof.
  intros Hwf Hop Hp Es. destruct o as [key value|key]; cbn in Hop.
  - destruct (put_cases self Hwf key value) as [(q & Hq & _ & E)|[(q & Hq & _ & E)|[_ E]]];
      rewrite E in Hop; try discriminate; injection Hop as <-;
      pose proof (first_stop_range self Hwf _ _ _ Hq) as Hr.
    + exact Es.
    + destruct (Z.eq_dec p q) as [->|Hne].
      * rewrite slot_at_written_eq in Es by assumption. discriminate.
      * now rewrite slot_at_written_ne in Es by (assumption || lia).
  - destruct (finds_decided self Hwf key) as [(q & Hq)|(_ & _ & E)].
    + rewrite (del_finds self Hwf key q Hq) in Hop. cbn in Hop. injection Hop as <-.
      pose proof (first_stop_range self Hwf _ _ _ (proj1 Hq)) as Hr.
      destruct (Z.eq_dec p q) as [->|Hne].
      * rewrite slot_at_tombstoned_eq in Es by assumption. discriminate.
      * now rewrite slot_at_tombstoned_ne in Es by (assumption || lia).
    + rewrite E in Hop. cbn in Hop. now injection Hop as <-.
Qed.

Lemma wf_apply_op self o self' :
  wf self -> apply_op self o = Ok self' -> wf self' /\ size self' = size self.
Proof.
  intros Hwf Hop. destruct o as [key value|key]; cbn in Hop.
  - now destruct (put_finds self Hwf key value self' Hop) as (H1 & H2 & _).
  - destruct (del_ self key) as [[r t']| |] eqn:E; try discriminate.
    cbn in Hop. injection Hop as ->.
    split; [exact (wf_del self key r self' Hwf E)|].
    destruct (finds_decided self Hwf key) as [(q & Hq)|(_ & _ & E')].
    + rewrite (del_finds self Hwf key q Hq) in E. now injection E as _ <-.
    + rewrite E' in E. now injection E as _ <-.
Qed.

(** X16.  The plain table never gets a cell back to Empty: along every
    run of [put] and [del_] calls on a well-formed table, a cell that is
    Empty at the end was Empty at the start; a deleted cell stays a
    tombstone until a [put] takes it. *)
Theorem empty_cells_never_come_back ops :
  forall self self' p,
    wf self -> run ops self = Ok self' -> 0 <= p < size self ->
    slot_at self' p = Empty -> slot_at self p = Empty.
Proof.
  induction ops as [|o ops IH]; intros self self' p Hwf Hrun Hp Es; cbn in Hrun.
  - now injection Hrun as <-.
  - destruct (apply_op self o) as [t'| |] eqn:E; try discriminate. cbn in Hrun.
    destruct (wf_apply_op self o t' Hwf E) as [Hwf' Hs].
    apply (apply_op_keeps_nonempty self o t' p Hwf E Hp).
    apply (IH t' self' p Hwf' Hrun); [lia|exact Es].
Qed.

Lemma empty_cells_never_come_back_witness :
  slot_at (__init__ 3) 2 = Empty.
Proof.
  apply (empty_cells_never_come_back [Put 0 (PyStr "a"); Del 0] (__init__ 3)
           (tombstoned (written (__init__ 3) 0 0 (PyStr "a")) 0) 2).
  - apply wf_init. reflexivity.
  - vm_compute. reflexivity.
  - cbn. lia.
  - vm_compute. reflexivity.
Defined.

(** ** A stale value across a resize *)

(** On the growing table a copy of a key left behind a tombstone can win
    the reinsertion: after [put(0, a)], [put(8, b)], [del_(0)] and three
    more keys, [put(8, c)] sets off the resize, and [get(8)] then returns
    [b]. *)
Lemma growing_put_get_stale :
  exists t t',
    grow_run ResizableHashTable.due_floor 2
      [Put 0 (PyStr "a"); Put 8 (PyStr "b"); Del 0;
       Put 1 (PyInt 1); Put 2 (PyInt 2); Put 3 (PyInt 3)]
      ResizableHashTable.__init__ = Ok t /\
    ResizableHashTable.put ResizableHashTable.due_floor 2 t 8 (PyStr "c") = Ok t' /\
    size t' = 16 /\ get t' 8 = Ok (PyStr "b").
Proof.
  do 2 eexists. split; [vm_compute; reflexivity|].
  split; [vm_compute; reflexivity|]. split; vm_compute; reflexivity.
Qed.
